(** * IG Reels Resolver: a shallow embedding of [app.py]

    The development follows the layout of the source file: Python string
    primitives, the cookie parsing loop, [_extract_og_video], the file name
    suggestion, the engine calls of Playwright as an error monad that records
    the calls it makes, [_playwright_fetch_html], [resolve_direct_mp4] and
    [_playwright_collect_reels]. *)

From Stdlib Require Import ZArith NArith List String Ascii Lia.
From stdpp Require Import base decidable option list gmap sets fin_sets sorting.

#[local] Set Warnings "-clear-no-such-hyp".

Local Open Scope list_scope.
Local Open Scope N_scope.

(** ** Python [str] *)

(** A Python [str] is a sequence of Unicode code points. *)
Abbreviation str := (list N).

(** Literal of the source text (all literals of [app.py] are ASCII). *)
Definition u (s : string) : str := map N_of_ascii (list_ascii_of_string s).
Arguments u s%_string.

(** A one-character literal of the source text. *)
Definition ch (s : string) : N := hd 0 (u s).
Arguments ch s%_string.

(** The double quote, code point 34. *)
Definition dq : N := 34.

(** [str.isspace] on one code point; it is also what [\s] matches in a
    [str] pattern. *)
Definition isspace (c : N) : bool :=
  ((9 <=? c) && (c <=? 13)) || ((28 <=? c) && (c <=? 32))
  || (c =? 133) || (c =? 160) || (c =? 5760)
  || ((8192 <=? c) && (c <=? 8202))
  || (c =? 8232) || (c =? 8233) || (c =? 8239) || (c =? 8287) || (c =? 12288).

(** [s.lstrip()], [s.rstrip()], [s.strip()] *)
Fixpoint lstrip (s : str) : str :=
  match s with
  | c :: s' => if isspace c then lstrip s' else s
  | [] => []
  end.

Definition rstrip (s : str) : str := rev (lstrip (rev s)).

Definition strip (s : str) : str := rstrip (lstrip s).

(** [s.lstrip(chars)] for a one-character [chars] *)
Fixpoint lstrip_char (c : N) (s : str) : str :=
  match s with
  | x :: s' => if x =? c then lstrip_char c s' else s
  | [] => []
  end.

(** [c in s] for a one-character [c] *)
Fixpoint contains_char (c : N) (s : str) : bool :=
  match s with
  | x :: s' => (x =? c) || contains_char c s'
  | [] => false
  end.

(** [s.startswith(p)] *)
Fixpoint startswith (s p : str) : bool :=
  match p, s with
  | [], _ => true
  | _ :: _, [] => false
  | a :: p', b :: s' => (a =? b) && startswith s' p'
  end.

(** [p in s] *)
Fixpoint contains (p s : str) : bool :=
  startswith s p ||
  match s with
  | _ :: s' => contains p s'
  | [] => false
  end.

(** [s.endswith(p)] *)
Definition endswith (s p : str) : bool := startswith (rev s) (rev p).

(** [s.split(sep)] for a one-character [sep]: the fragments, never an empty
    list. *)
Fixpoint split (sep : N) (s : str) : list str :=
  match s with
  | [] => [[]]
  | c :: s' =>
      if c =? sep then [] :: split sep s'
      else match split sep s' with
           | f :: fs => (c :: f) :: fs
           | [] => [[c]]
           end
  end.

(** [s.split(sep, 1)]: at most one cut, at the first [sep]. *)
Fixpoint split1 (sep : N) (s : str) : list str :=
  match s with
  | [] => [[]]
  | c :: s' =>
      if c =? sep then [[]; s']
      else match split1 sep s' with
           | f :: fs => (c :: f) :: fs
           | [] => [[c]]
           end
  end.

(** [l[-1]] and [l[0]]; [None] stands for [IndexError]. *)
Definition item_last (l : list str) : option str := last l.
Definition item_first (l : list str) : option str := head l.

(** Comparison of two [str]: code point by code point, a proper prefix is
    smaller. *)
Fixpoint str_leb (a b : str) : bool :=
  match a, b with
  | [], _ => true
  | _ :: _, [] => false
  | x :: a', y :: b' =>
      if x <? y then true else if x =? y then str_leb a' b' else false
  end.

Definition str_le (a b : str) : Prop := str_leb a b = true.
Definition str_lt (a b : str) : Prop := str_le a b ∧ a ≠ b.

Global Instance str_le_dec a b : Decision (str_le a b).
Proof. unfold str_le. apply _. Defined.

(** ** Cookie records *)

Record cookie := Cookie {
  name : str;
  value : str;
  domain : str;
  path : str
}.

Global Instance cookie_eq_dec : EqDecision cookie.
Proof. solve_decision. Defined.

(** The loop of lines 60-67 (and 87-93): [Some] of the list [cookies] after
    the loop, [None] if the unpacking [name, value = part.split("=", 1)]
    raised. *)
Fixpoint cookie_loop (parts : list str) (cookies : list cookie)
  : option (list cookie) :=
  match parts with
  | [] => Some cookies
  | part :: rest =>
      let part := strip part in
      if negb (contains_char (ch "=") part) then cookie_loop rest cookies
      else match split1 (ch "=") part with
           | [name; value] =>
               cookie_loop rest
                 (cookies ++ [Cookie (strip name) (strip value)
                                (u ".instagram.com") (u "/")])
           | _ => None
           end
  end.

Definition parse_cookies (cookie_header : str) : option (list cookie) :=
  cookie_loop (split (ch ";") cookie_header) [].

(** ** [_extract_og_video] *)

(** A literal character of a pattern compiled with [re.I], against one code
    point of the text: both cases of an ASCII letter, and the code points
    whose lower case is that letter ([i]: U+0130, U+0131; [k]: U+212A;
    [s]: U+017F). *)
Definition lower (c : N) : N :=
  if (65 <=? c) && (c <=? 90) then c + 32 else c.

Definition ci_char (p c : N) : bool :=
  (lower c =? lower p)
  || ((lower p =? 105) && ((c =? 304) || (c =? 305)))
  || ((lower p =? 107) && (c =? 8490))
  || ((lower p =? 115) && (c =? 383)).

(** A literal run of the pattern at the head of the text; the rest of the
    text after it. *)
Fixpoint lit_ci (p s : str) : option str :=
  match p, s with
  | [], _ => Some s
  | _ :: _, [] => None
  | a :: p', c :: s' => if ci_char a c then lit_ci p' s' else None
  end.

(** [\s+] followed by a literal that is no white space: one white space,
    then all that follow. *)
Definition ws_plus (s : str) : option str :=
  match s with
  | c :: s' => if isspace c then Some (lstrip s') else None
  | [] => None
  end.

(** The group of the pattern, one or more characters that are no double
    quote, and the double quote that closes it: the longest run without a
    double quote, not empty, then the quote. *)
Fixpoint until_dq (s : str) : option (str * str) :=
  match s with
  | [] => None
  | c :: s' =>
      if c =? dq then Some ([], s')
      else match until_dq s' with
           | Some (g, r) => Some (c :: g, r)
           | None => None
           end
  end.

Definition group_dq (s : str) : option str :=
  match until_dq s with
  | Some (c :: g, _) => Some (c :: g)
  | _ => None
  end.

(** The pattern of line 41 anchored at the head of the text, piece by piece:
    [<meta], [\s+], [property="og:video"], [\s+], [content=] and the opening
    quote, the group and the closing quote. The result is group 1. *)
Definition match_og_video (s : str) : option str :=
  s1 ← lit_ci (u "<meta") s;
  s2 ← ws_plus s1;
  s3 ← lit_ci (u "property=" ++ [dq] ++ u "og:video" ++ [dq]) s2;
  s4 ← ws_plus s3;
  s5 ← lit_ci (u "content=" ++ [dq]) s4;
  group_dq s5.

(** [re.search]: the leftmost position where the pattern matches. *)
Fixpoint re_search (s : str) : option str :=
  match match_og_video s with
  | Some g => Some g
  | None => match s with
            | _ :: s' => re_search s'
            | [] => None
            end
  end.

Definition _extract_og_video (html : str) : option str := re_search html.

(** ** File name suggestion (lines 146-147 and 159-160) *)

(** [mp4.split("/")[-1].split("?")[0]]; [None] stands for [IndexError]. *)
Definition vid_id (mp4 : str) : option str :=
  seg ← item_last (split (ch "/") mp4);
  item_first (split (ch "?") seg).

(** [f"{vid_id}.mp4"] *)
Definition filename_of (mp4 : str) : option str :=
  v ← vid_id mp4; Some (v ++ u ".mp4").

Local Close Scope N_scope.

(** Truth value of an [Optional[str]]: [None] and the empty string are
    false. *)
Definition truthy (o : option str) : bool :=
  match o with
  | Some (_ :: _) => true
  | _ => false
  end.

(** ** The collaborators: httpx, pydantic and Playwright *)

(** The calls the program makes to the outside, in the order it makes them. *)
Inductive call :=
  | Http_get (url : str) (headers : list (str * str))
  | Sync_playwright_enter
  | Chromium_launch
  | New_context
  | Add_cookies (cookies : list cookie)
  | New_page
  | Goto (url : str)
  | Wait_for_timeout (ms : Z)
  | Content
  | Eval_on_selector_all
  | Evaluate_scroll
  | Context_close
  | Browser_close
  | Sync_playwright_exit.

Global Instance call_eq_dec : EqDecision call.
Proof. solve_decision. Defined.

(** The [detail] of the two [HTTPException]s of lines 51 and 158. *)
Inductive detail :=
  | Upstream_status (status_code : Z)
  | Could_not_resolve.

(** The exceptions: [HTTPException] of FastAPI; a transport failure of httpx;
    the [ValidationError] of pydantic; [ValueError] (unpacking) and
    [IndexError] of Python; an error raised by a Playwright call, such as
    its [TimeoutError]. All of them are [Exception]s. *)
Inductive exn :=
  | HTTPException (status_code : Z) (d : detail)
  | TransportError
  | ValidationError
  | ValueError
  | IndexError
  | EngineError (c : call).

Inductive fetch_reply :=
  | Response (status_code : Z) (text : str)
  | Transport_failure.

(** What the outside answers during one invocation: the user agent read
    from the environment; the reply of the fetch; pydantic's [HttpUrl]
    validation of a string, which refuses it ([None]) or keeps a URL whose
    text is pydantic's normal form of the string (scheme and host in lower
    case, an empty path made [/], percent-encoding) and need not be the
    string itself; which calls to the engine raise ([fails n]: the call
    recorded at position [n], from 0); the document that [page.content()]
    returns; and what the [n]-th evaluation of the anchor selector returns
    (from 0). *)
Record world := World {
  UA : str;
  http_reply : fetch_reply;
  HttpUrl : str → option str;
  fails : nat → bool;
  page_content : str;
  page_hrefs : nat → list str
}.

(** The verdict of the validation. *)
Definition http_url_ok (w : world) (s : str) : bool :=
  match HttpUrl w s with
  | Some _ => true
  | None => false
  end.

(** How a computation ends; [Diverge] is a [while True] loop that has used
    up its fuel. *)
Inductive outcome (A : Type) :=
  | Return (a : A)
  | Raise (e : exn)
  | Diverge.
Arguments Return {A} a.
Arguments Raise {A} e.
Arguments Diverge {A}.

(** A computation reads the world and extends the record of calls; it
    returns, raises, or runs out of fuel in the [while True] loop. *)
Record M (A : Type) := Run {
  run : world → list call → list call * outcome A
}.
Arguments Run {A} run.
Arguments run {A} m w tr.

Global Instance M_ret : MRet M := λ A a, Run (λ w tr, (tr, Return a)).

Global Instance M_bind : MBind M := λ A B k m, Run (λ w tr,
  match run m w tr with
  | (tr', Return a) => run (k a) w tr'
  | (tr', Raise e) => (tr', Raise e)
  | (tr', Diverge) => (tr', Diverge)
  end).

Definition raise {A} (e : exn) : M A := Run (λ w tr, (tr, Raise e)).
Definition diverge {A} : M A := Run (λ w tr, (tr, Diverge)).
Definition ask : M world := Run (λ w tr, (tr, Return w)).

(** A value that may be an exception. *)
Definition lift {A} (e : exn) (o : option A) : M A :=
  match o with
  | Some a => mret a
  | None => raise e
  end.

(** One call to the outside: recorded, then it returns or raises. *)
Definition called {A} (c : call) (reply : world → outcome A) : M A :=
  Run (λ w tr, (tr ++ [c], reply w)).

(** One call to the engine: it raises when the world says so. *)
Definition engine (c : call) : M unit := Run (λ w tr,
  (tr ++ [c], if fails w (length tr) then Raise (EngineError c) else Return ())).

(** [try: body except Exception as e: handler e] *)
Definition try_except {A} (body : M A) (handler : exn → M A) : M A :=
  Run (λ w tr,
    match run body w tr with
    | (tr', Raise e) => run (handler e) w tr'
    | r => r
    end).

(** [with sync_playwright() as p: body]: the exit runs when the body returns
    and when it raises. *)
Definition with_sync_playwright {A} (body : M A) : M A := Run (λ w tr,
  match run (engine Sync_playwright_enter) w tr with
  | (tr1, Return _) =>
      match run body w tr1 with
      | (tr2, Return a) =>
          match run (engine Sync_playwright_exit) w tr2 with
          | (tr3, Return _) => (tr3, Return a)
          | (tr3, Raise e) => (tr3, Raise e)
          | (tr3, Diverge) => (tr3, Diverge)
          end
      | (tr2, Raise e) =>
          match run (engine Sync_playwright_exit) w tr2 with
          | (tr3, Raise e') => (tr3, Raise e')
          | (tr3, _) => (tr3, Raise e)
          end
      | (tr2, Diverge) => (tr2, Diverge)
      end
  | (tr1, Raise e) => (tr1, Raise e)
  | (tr1, Diverge) => (tr1, Diverge)
  end).

(** ** [_http_get] *)

(** The [headers] dictionary of lines 45-47. *)
Definition request_headers (ua : str) (cookie_header : option str)
  : list (str * str) :=
  let headers := [(u "User-Agent", ua)] in
  match cookie_header with
  | Some h => if truthy cookie_header then headers ++ [(u "Cookie", h)]
              else headers
  | None => headers
  end.

Definition _http_get (url : str) (cookie_header : option str) : M str :=
  w ← ask;
  let headers := request_headers (UA w) cookie_header in
  called (Http_get url headers) (λ w,
    match http_reply w with
    | Transport_failure => Raise TransportError
    | Response status_code text =>
        if (400 <=? status_code)%Z
        then Raise (HTTPException 502 (Upstream_status status_code))
        else Return text
    end).

(** ** [_playwright_fetch_html] *)

(** Lines 59-69, and again lines 86-95. *)
Definition install_cookies (cookie_header : option str) : M unit :=
  match cookie_header with
  | Some h =>
      if truthy cookie_header then
        cookies ← lift ValueError (parse_cookies h);
        match cookies with
        | _ :: _ => engine (Add_cookies cookies)
        | [] => mret ()
        end
      else mret ()
  | None => mret ()
  end.

Definition _playwright_fetch_html (url : str) (cookie_header : option str)
  : M str :=
  with_sync_playwright (
    engine Chromium_launch;;
    engine New_context;;
    install_cookies cookie_header;;
    engine New_page;;
    engine (Goto url);;
    engine (Wait_for_timeout 1500);;
    engine Content;;
    w ← ask;
    let html := page_content w in
    engine Context_close;;
    engine Browser_close;;
    mret html).

(** ** [resolve_direct_mp4] *)

Record ResolveIn := {
  reel_url : str;
  cookie_header : option str
}.

Record ResolveOut := {
  out_reel_url : str;
  mp4_url : option str;
  filename : option str;
  title : option str
}.

(** The constructor call [ResolveOut(reel_url=..., mp4_url=..., filename=...,
    title=None)]: the two [HttpUrl] fields are validated, and the record
    keeps what the validation made of them, not the strings given; the file
    name is kept as given. *)
Definition mkResolveOut (reel_url mp4 filename : str) : M ResolveOut :=
  w ← ask;
  match HttpUrl w reel_url, HttpUrl w mp4 with
  | Some reel_url, Some mp4 =>
      mret {| out_reel_url := reel_url; mp4_url := Some mp4;
              filename := Some filename; title := None |}
  | _, _ => raise ValidationError
  end.

(** The [vid_id] lines followed by the [return ResolveOut(...)]. *)
Definition build_result (reel_url mp4 : str) : M ResolveOut :=
  vid_id ← lift IndexError (vid_id mp4);
  mkResolveOut reel_url mp4 (vid_id ++ u ".mp4").

(** The [try] statement of lines 141-152: [Some] of the result when the body
    returned, [None] when control falls through to line 154. *)
Definition try_fast_path (payload : ResolveIn) : M (option ResolveOut) :=
  let reel_url := reel_url payload in
  try_except
    (html ← _http_get reel_url (cookie_header payload);
     let mp4 := _extract_og_video html in
     match mp4 with
     | Some m => if truthy mp4
                 then out ← build_result reel_url m; mret (Some out)
                 else mret None
     | None => mret None
     end)
    (λ e, match e with
          | HTTPException _ _ => mret None
          | _ => mret None
          end).

Definition resolve_direct_mp4 (payload : ResolveIn) : M ResolveOut :=
  let reel_url := reel_url payload in
  r ← try_fast_path payload;
  match r with
  | Some out => mret out
  | None =>
      html2 ← _playwright_fetch_html reel_url (cookie_header payload);
      let mp42 := _extract_og_video html2 in
      match mp42 with
      | Some m => if truthy mp42 then build_result reel_url m
                  else raise (HTTPException 502 Could_not_resolve)
      | None => raise (HTTPException 502 Could_not_resolve)
      end
  end.

(** ** [_playwright_collect_reels] *)

(** [max_count and len(seen) >= max_count] *)
Definition cap_reached (max_count : option Z) (seen : gset str) : bool :=
  match max_count with
  | Some m => negb (m =? 0)%Z && (m <=? Z.of_nat (size seen))%Z
  | None => false
  end.

(** The [for href in hrefs] loop of lines 108-116: the set and the counter
    [new] when the loop ends or breaks. *)
Fixpoint for_hrefs (max_count : option Z) (hrefs : list str)
    (seen : gset str) (new : nat) : gset str * nat :=
  match hrefs with
  | [] => (seen, new)
  | href :: rest =>
      if negb (contains (u "/reel/") href)
      then for_hrefs max_count rest seen new
      else
        let href := if negb (endswith href (u "/")) then href ++ u "/"
                    else href in
        if negb (bool_decide (href ∈ seen)) then
          let seen := seen ∪ {[href]} in
          let new := new + 1 in
          if cap_reached max_count seen then (seen, new)
          else for_hrefs max_count rest seen new
        else for_hrefs max_count rest seen new
  end.

Definition idle_limit : nat := 15.

(** The [while True] loop of lines 102-126; [n] counts the evaluations of
    the selector made so far. *)
Fixpoint while_true (fuel : nat) (max_count : option Z) (n : nat)
    (seen : gset str) (idle_rounds : nat) : M (gset str) :=
  match fuel with
  | O => diverge
  | S fuel =>
      engine Eval_on_selector_all;;
      w ← ask;
      let hrefs := page_hrefs w n in
      let '(seen, new) := for_hrefs max_count hrefs seen 0 in
      if cap_reached max_count seen then mret seen
      else
        let idle_rounds := if new =? 0 then idle_rounds + 1 else 0 in
        if idle_limit <=? idle_rounds then mret seen
        else
          engine Evaluate_scroll;;
          engine (Wait_for_timeout 1200);;
          while_true fuel max_count (S n) seen idle_rounds
  end.

(** [sorted(seen)] *)
Definition sorted (seen : gset str) : list str :=
  merge_sort str_le (elements seen).

(** Line 81. *)
Definition reels_url_of (username : str) : str :=
  u "https://www.instagram.com/" ++ lstrip_char (ch "@") (strip username)
    ++ u "/reels/".

Definition _playwright_collect_reels (fuel : nat) (username : str)
    (max_count : option Z) (cookie_header : option str) : M (list str) :=
  let reels_url := reels_url_of username in
  seen ← with_sync_playwright (
    engine Chromium_launch;;
    engine New_context;;
    install_cookies cookie_header;;
    engine New_page;;
    engine (Goto reels_url);;
    engine (Wait_for_timeout 1200);;
    seen ← while_true fuel max_count 0 ∅ 0;
    engine Context_close;;
    engine Browser_close;;
    mret seen);
  mret (sorted seen).

(** * Specification-level notions *)

(** ** Cookie translator, in the words of the specification *)

(** A fragment that holds an [=], cut at its first [=]: the record made of
    the trimmed halves, with the fixed domain and path. *)
Definition record_of_fragment (part : str) (c : cookie) : Prop :=
  ∃ n v, strip part = n ++ ch "=" :: v
         ∧ contains_char (ch "=") n = false
         ∧ c = Cookie (strip n) (strip v) (u ".instagram.com") (u "/").

Definition has_eq (part : str) : Prop := contains_char (ch "=") part = true.

Global Instance has_eq_dec part : Decision (has_eq part).
Proof. unfold has_eq. apply _. Defined.

(** ** The og:video marker, as the language of the pattern *)

(** [p] matches [s] letter by letter, ignoring case. *)
Definition ci_eq (p s : str) : Prop := Forall2 (λ a c, ci_char a c = true) p s.

(** One or more white space characters. *)
Definition spaces (s : str) : Prop :=
  s ≠ [] ∧ Forall (λ c, isspace c = true) s.

(** The text [s] starts with the marker and [v] is its content value. *)
Definition og_video_marker (s v : str) : Prop :=
  ∃ a w1 b w2 c rest,
    s = a ++ w1 ++ b ++ w2 ++ c ++ v ++ dq :: rest
    ∧ ci_eq (u "<meta") a
    ∧ spaces w1
    ∧ ci_eq (u "property=" ++ [dq] ++ u "og:video" ++ [dq]) b
    ∧ spaces w2
    ∧ ci_eq (u "content=" ++ [dq]) c
    ∧ v ≠ [] ∧ dq ∉ v.

(** The marker occurs in [html] after [k] characters, with content [v]. *)
Definition marker_at (html : str) (k : nat) (v : str) : Prop :=
  k ≤ length html ∧ og_video_marker (drop k html) v.

(** The text does not start with white space. *)
Definition nospace_head (s : str) : Prop :=
  match s with
  | c :: _ => isspace c = false
  | [] => True
  end.

(** The documents of the examples: the marker of the specification, the same
    marker in upper case, and a page without the marker. *)
Definition og_doc : str :=
  u "<meta property=" ++ [dq] ++ u "og:video" ++ [dq] ++ u " content="
    ++ [dq] ++ u "https://x/y.mp4" ++ [dq] ++ u ">".

Definition og_doc_upper : str :=
  u "<html><META  PROPERTY=" ++ [dq] ++ u "OG:Video" ++ [dq] ++ u " CONTENT="
    ++ [dq] ++ u "https://x/y.mp4" ++ [dq] ++ u "><meta property=" ++ [dq]
    ++ u "og:video" ++ [dq] ++ u " content=" ++ [dq] ++ u "https://x/z.mp4"
    ++ [dq] ++ u ">".


(** ** Resolution, in the words of the specification *)

(** How many times the rendered-page resolver was invoked: every invocation
    of [_playwright_fetch_html] starts by entering [sync_playwright()]. *)
Definition invocations (tr : list call) : nat :=
  count_occ call_eq_dec tr Sync_playwright_enter.

(** What the fast path yields: the media URL extracted from the body of a
    response whose status is below 400. *)
Definition fast_path_url (w : world) : option str :=
  match http_reply w with
  | Response status_code text =>
      if (400 <=? status_code)%Z then None else _extract_og_video text
  | Transport_failure => None
  end.


(** [stem] is what the file name is derived from: the final path segment of
    [url] (what follows its last [/], or all of it when it holds none), cut
    before its first [?]. *)
Definition url_stem (url stem : str) : Prop :=
  ∃ pre rest,
    url = pre ++ stem ++ rest
    ∧ (pre = [] ∨ ∃ dir, pre = dir ++ [ch "/"])
    ∧ (ch "/" ∉ stem ++ rest)
    ∧ (ch "?" ∉ stem)
    ∧ (rest = [] ∨ ∃ query, rest = ch "?" :: query).

(** A page that declares the given media URL. *)
Definition page_with (mp4 : str) : str :=
  u "<meta property=" ++ [dq] ++ u "og:video" ++ [dq] ++ u " content="
    ++ [dq] ++ mp4 ++ [dq] ++ u ">".


Definition world_404 (mp4 : str) : world :=
  World (u "UA") (Response 404 []) (λ s, Some s) (λ _, false)
    (page_with mp4) (λ _, []).

(** A validation that accepts the strings that start with [http] and keeps
    them as they are; the fetch answers 200 with a page that declares an
    [ftp] URL, and the rendered page declares [mp4]. *)
Definition world_refused (mp4 : str) : world :=
  World (u "UA") (Response 200 (page_with (u "ftp://x/y.mp4")))
    (λ s, if startswith s (u "http") then Some s else None) (λ _, false)
    (page_with mp4) (λ _, []).

(** A validation that gives a host without path the path [/], as pydantic
    does, and keeps the other strings as they are; the fetch answers 200
    with a page that declares [mp4]. *)
Definition world_slash (mp4 : str) : world :=
  World (u "UA") (Response 200 (page_with mp4))
    (λ s, Some (if bool_decide (s = u "https://x") then u "https://x/"
                else s))
    (λ _, false) [] (λ _, []).

Definition payload0 : ResolveIn :=
  {| reel_url := u "https://www.instagram.com/reel/abc/";
     cookie_header := None |}.

(** What [install_cookies] adds to the record of calls. *)
Definition cookie_calls (cookie_header : option str) : list call :=
  match cookie_header with
  | Some h =>
      if truthy cookie_header then
        match parse_cookies h with
        | Some (c :: cs) => [Add_cookies (c :: cs)]
        | _ => []
        end
      else []
  | None => []
  end.


(** ** A postcondition for code without loops *)

(** Whatever the world and the calls recorded so far, [m] only adds calls
    that satisfy [P], does not diverge, and when it returns [a] then
    [V w a]. *)
Definition sat {A} (m : M A) (P : call → Prop) (V : world → A → Prop)
  : Prop :=
  ∀ w tr, ∃ added,
    (run m w tr).1 = tr ++ added
    ∧ Forall P added
    ∧ match (run m w tr).2 with
      | Return a => V w a
      | Raise _ => True
      | Diverge => False
      end.

(** The Resolution Result for the extracted media URL [mp4], when the
    validation accepts both URLs: the URL fields hold the validated forms,
    the file name comes from the extracted string. *)
Definition result_for (w : world) (reel_url mp4 : str) : ResolveOut :=
  {| out_reel_url := default reel_url (HttpUrl w reel_url);
     mp4_url := HttpUrl w mp4;
     filename := filename_of mp4; title := None |}.

(** The two [HttpUrl] fields of the result pass the validation. *)
Definition fields_ok (w : world) (reel_url mp4 : str) : bool :=
  http_url_ok w reel_url && http_url_ok w mp4.

(** The request of the fast path. *)
Definition fast_request (w : world) (payload : ResolveIn) : call :=
  Http_get (reel_url payload)
    (request_headers (UA w) (cookie_header payload)).

(** A world where neither the fetched page nor the rendered page declares a
    media URL. *)
Definition world_none : world :=
  World (u "UA") (Response 200 (u "<html></html>")) (λ s, Some s)
    (λ _, false)
    (u "<html></html>") (λ _, []).

(** A world where the navigation, the fifth call of a session without
    cookies, times out. *)
Definition world_timeout : world :=
  World (u "UA") (Response 404 []) (λ s, Some s) (λ i, i =? 4)
    (page_with (u "https://x/y.mp4")) (λ _, []).

(** ** Collection, in the words of the specification *)

(** A harvested link is a reel link when it holds the reel-path marker; its
    canonical form ends with a slash. *)
Definition is_reel (href : str) : bool := contains (u "/reel/") href.

Definition canonical (href : str) : str :=
  if endswith href (u "/") then href else href ++ u "/".

(** The canonical reel links of one batch, in the order of the batch. *)
Fixpoint reel_links (hrefs : list str) : list str :=
  match hrefs with
  | [] => []
  | href :: rest =>
      if is_reel href then canonical href :: reel_links rest
      else reel_links rest
  end.

(** The distinct canonical reel links of the batches of rounds [0] to
    [n - 1]. *)
Fixpoint discovered (w : world) (n : nat) : gset str :=
  match n with
  | O => ∅
  | S j => discovered w j ∪ list_to_set (reel_links (page_hrefs w j))
  end.

(** Round [j] is idle: its batch holds no link that the earlier batches did
    not hold. *)
Definition idle_round (w : world) (j : nat) : Prop :=
  discovered w (S j) = discovered w j.

Global Instance idle_round_dec w j : Decision (idle_round w j).
Proof. unfold idle_round. apply _. Defined.

(** The number of consecutive idle rounds that end just before round [n]. *)
Fixpoint idle_streak (w : world) (n : nat) : nat :=
  match n with
  | O => 0
  | S j => if decide (idle_round w j) then S (idle_streak w j) else 0
  end.

(** The calls of one round that goes on, of [k] such rounds, of the set-up
    and of the end of a collection. *)
Definition round_calls : list call :=
  [Eval_on_selector_all; Evaluate_scroll; Wait_for_timeout 1200].

Fixpoint rounds_calls (k : nat) : list call :=
  match k with
  | O => []
  | S j => round_calls ++ rounds_calls j
  end.

Definition setup_calls (username : str) (cookie_header : option str)
  : list call :=
  [Sync_playwright_enter; Chromium_launch; New_context]
    ++ cookie_calls cookie_header
    ++ [New_page; Goto (reels_url_of username); Wait_for_timeout 1200].

Definition closing_calls : list call :=
  [Context_close; Browser_close; Sync_playwright_exit].

(** The record of a collection that stops in round [k]. *)
Definition collection_calls (username : str) (cookie_header : option str)
    (k : nat) : list call :=
  setup_calls username cookie_header ++ rounds_calls k
    ++ [Eval_on_selector_all] ++ closing_calls.

(** Harvest rounds and scrolls in a record of calls. *)
Definition rounds (tr : list call) : nat :=
  count_occ call_eq_dec tr Eval_on_selector_all.

Definition scrolls (tr : list call) : nat :=
  count_occ call_eq_dec tr Evaluate_scroll.

(** The length the specification gives to the output: the number [d] of
    distinct links, capped at the maximum when a positive one is set. *)
Definition capped (max_count : option Z) (d : nat) : nat :=
  match max_count with
  | Some m => if (m =? 0)%Z then d else Nat.min d (Z.to_nat m)
  | None => d
  end.

(** ** Pages of the examples *)

(** The [i]-th of a family of distinct reel links. *)
Definition nth_link (i : nat) : str :=
  u "https://www.instagram.com/reel/" ++ replicate i (ch "a") ++ u "/".

(** A page whose first evaluation shows [n] distinct reel links and whose
    later evaluations show nothing; no call fails. *)
Definition world_links (n : nat) : world :=
  World (u "UA") (Response 200 []) (λ s, Some s) (λ _, false) []
    (λ r, match r with
          | O => nth_link <$> seq 0 n
          | S _ => []
          end).

(** * Further code: [list_reels], and notions for its properties *)

(** ** [list_reels] *)

(** The request body [ReelsQuery] and the response [ReelsOut]. *)
Record ReelsQuery := {
  max : option Z;
  query_cookie_header : option str
}.

Record ReelsOut := {
  username : str;
  count : nat;
  reels : list str
}.

(** What the route raises: the [HTTPException] of line 167, whose detail
    holds the exception caught, and the [ValidationError] of the
    [ReelsOut] constructor. *)
Inductive route_exn :=
  | Failed_to_collect (status_code : Z) (cause : exn)
  | Reels_ValidationError.

Inductive route_outcome :=
  | Responded (r : ReelsOut)
  | Failed (e : route_exn)
  | Unfinished.

(** Lines 163-168. The [try] holds the collection only; the constructor
    [ReelsOut(...)], which validates every element of [reels] as an
    [HttpUrl] and keeps the validated forms in the order given, is outside
    it. *)
Definition list_reels (fuel : nat) (username : str) (q : ReelsQuery)
    (w : world) : list call * route_outcome :=
  match run (_playwright_collect_reels fuel username (max q)
               (query_cookie_header q)) w [] with
  | (tr, Return urls) =>
      (tr, match mapM (HttpUrl w) urls with
           | Some reels =>
               Responded {| username := username; count := length urls;
                            reels := reels |}
           | None => Failed Reels_ValidationError
           end)
  | (tr, Raise e) => (tr, Failed (Failed_to_collect 502 e))
  | (tr, Diverge) => (tr, Unfinished)
  end.

(** ** Notions for the properties *)

(** [sep.join(l)] for a one-character [sep]. *)
Fixpoint join (sep : N) (l : list str) : str :=
  match l with
  | [] => []
  | f :: l' =>
      match l' with
      | [] => f
      | _ :: _ => f ++ sep :: join sep l'
      end
  end.

(** A text without white space at either end. *)
Definition trimmed (s : str) : Prop :=
  nospace_head s ∧ nospace_head (rev s).

(** The calls that [m] adds are an initial part of [script], all of it when
    [m] returns; and [m] does not diverge. *)
Definition follows {A} (m : M A) (script : list call) : Prop :=
  ∀ w tr, ∃ added,
    (run m w tr).1 = tr ++ added
    ∧ added `prefix_of` script
    ∧ match (run m w tr).2 with
      | Return _ => added = script
      | Raise _ => True
      | Diverge => False
      end.

(** The calls of a session of [_playwright_fetch_html], between the entry
    into the [sync_playwright()] scope and its exit. *)
Definition session_script (url : str) (cookie_header : option str)
  : list call :=
  [Chromium_launch; New_context] ++ cookie_calls cookie_header
    ++ [New_page; Goto url; Wait_for_timeout 1500; Content;
        Context_close; Browser_close].

(** [m] reports the failures of the engine and nothing else: when it
    returns, none of the calls it added has failed; when it raises, it
    raises the error of an engine call, and one of the calls it added has
    failed. *)
Definition reports_engine_failures {A} (m : M A) : Prop :=
  ∀ w tr, ∃ added,
    (run m w tr).1 = tr ++ added
    ∧ match (run m w tr).2 with
      | Return _ =>
          ∀ i, length tr ≤ i < length tr + length added → fails w i = false
      | Raise e =>
          ∃ c i, e = EngineError c
                 ∧ length tr ≤ i < length tr + length added
                 ∧ fails w i = true
      | Diverge => True
      end.

(** A page that shows one more reel link at every evaluation; no call
    fails. *)
Definition world_endless : world :=
  World (u "UA") (Response 200 []) (λ s, Some s) (λ _, false) []
    (λ r, [nth_link r]).

(** A world where the fetch fails in transport and where the last call of
    the session before the scope exit, [browser.close()], raises. *)
Definition world_close_fails : world :=
  World (u "UA") Transport_failure (λ s, Some s) (λ i, i =? 9)
    (page_with (u "https://x/y.mp4")) (λ _, []).

(** A page that shows two reel links, and a validation that makes the same
    URL of every string. *)
Definition world_collapse : world :=
  World (u "UA") (Response 200 [])
    (λ _, Some (u "https://www.instagram.com/")) (λ _, false) []
    (page_hrefs (world_links 2)).
(** * Properties *)

(** ** Strings *)

Lemma contains_char_app c (a b : str) :
  contains_char c (a ++ b) = contains_char c a || contains_char c b.
Proof.
  induction a as [|x a IH]; simpl; [done|].
  by rewrite IH, orb_assoc.
Qed.

Lemma contains_char_rev c (s : str) :
  contains_char c (rev s) = contains_char c s.
Proof.
  induction s as [|x s IH]; simpl; [done|].
  rewrite contains_char_app, IH. simpl.
  rewrite orb_false_r. apply orb_comm.
Qed.

Lemma contains_char_lstrip c (s : str) :
  isspace c = false → contains_char c (lstrip s) = contains_char c s.
Proof.
  intros Hc. induction s as [|x s IH]; simpl; [done|].
  destruct (isspace x) eqn:Hx; simpl; [|done].
  rewrite IH. destruct (N.eqb_spec x c) as [->|]; [congruence|done].
Qed.

Lemma contains_char_strip c (s : str) :
  isspace c = false → contains_char c (strip s) = contains_char c s.
Proof.
  intros Hc. unfold strip, rstrip.
  rewrite contains_char_rev, contains_char_lstrip, contains_char_rev by done.
  by apply contains_char_lstrip.
Qed.

Lemma contains_char_elem c (s : str) : contains_char c s = true ↔ c ∈ s.
Proof.
  induction s as [|x s IH]; simpl.
  - split; [done|]. by intros ?%elem_of_nil.
  - rewrite orb_true_iff, IH, elem_of_cons, N.eqb_eq.
    split; (intros [?|?]; [by left|by right]).
Qed.

Lemma split_nonempty sep (s : str) : split sep s ≠ [].
Proof. destruct s as [|c s]; simpl; [done|]. by repeat case_match. Qed.

Lemma split1_cut c (s : str) :
  contains_char c s = true →
  ∃ n v, split1 c s = [n; v] ∧ s = n ++ c :: v ∧ contains_char c n = false.
Proof.
  induction s as [|x s IH]; simpl; [done|].
  destruct (N.eqb_spec x c) as [->|Hne]; simpl.
  - intros _. by exists [], s.
  - intros (n & v & -> & -> & Hn)%IH.
    exists (x :: n), v. simpl. split_and!; [done..|].
    apply N.eqb_neq in Hne. by rewrite Hne.
Qed.

(** ** Cookie translator *)

Lemma cookie_loop_spec (parts : list str) (acc : list cookie) :
  ∃ cs, cookie_loop parts acc = Some (acc ++ cs)
        ∧ Forall2 record_of_fragment (filter has_eq parts) cs.
Proof.
  revert acc. induction parts as [|part parts IH]; intros acc; simpl.
  - exists []. by rewrite app_nil_r.
  - assert (Heq : contains_char (ch "=") (strip part)
                  = contains_char (ch "=") part)
      by (by apply contains_char_strip).
    destruct (contains_char (ch "=") (strip part)) eqn:Hc; simpl.
    + destruct (split1_cut _ _ Hc) as (n & v & Hs & Hnv & Hn).
      rewrite Hs.
      destruct (IH (acc ++ [Cookie (strip n) (strip v)
                              (u ".instagram.com") (u "/")]))
        as (cs & -> & HF).
      eexists (_ :: cs). rewrite <-app_assoc. split; [done|].
      rewrite filter_cons_True by (unfold has_eq; congruence).
      constructor; [|done]. by exists n, v.
    + destruct (IH acc) as (cs & -> & HF). exists cs. split; [done|].
      by rewrite filter_cons_False by (unfold has_eq; congruence).
Qed.

(** C6. The cookie translator never fails; its records are, in order, those
    of the [;]-delimited fragments that hold an [=], each trimmed and cut at
    its first [=] only, with the fixed domain and path; so there are at most
    as many records as fragments; and the header [a=1; b=2=x] gives the
    records a:1 and b:2=x. *)
Theorem cookie_translator_contract :
  (∀ cookie_header : str,
     ∃ cookies,
       parse_cookies cookie_header = Some cookies
       ∧ length cookies ≤ length (split (ch ";") cookie_header)
       ∧ Forall2 record_of_fragment
           (filter has_eq (split (ch ";") cookie_header)) cookies)
  ∧ parse_cookies (u "a=1; b=2=x")
    = Some [Cookie (u "a") (u "1") (u ".instagram.com") (u "/");
            Cookie (u "b") (u "2=x") (u ".instagram.com") (u "/")].
Proof.
  split; [|reflexivity].
  intros h. unfold parse_cookies.
  destruct (cookie_loop_spec (split (ch ";") h) []) as (cs & -> & HF).
  exists cs. split_and!; [done| |done].
  rewrite <-(Forall2_length _ _ _ HF). apply length_filter.
Qed.

(** ** File name suggestion *)



Lemma vid_id_total (mp4 : str) : ∃ v, vid_id mp4 = Some v.
Proof.
  unfold vid_id, item_last, item_first.
  destruct (split (ch "/") mp4) as [|f fs] eqn:Hs using rev_ind.
  - by destruct (split_nonempty (ch "/") mp4).
  - rewrite last_snoc. simpl.
    destruct (split (ch "?") f) eqn:Hq; [|by eexists].
    by destruct (split_nonempty (ch "?") f).
Qed.



(** ** The og:video marker *)

Lemma lit_ci_sound (p s r : str) :
  lit_ci p s = Some r → ∃ a, s = a ++ r ∧ ci_eq p a.
Proof.
  revert s. induction p as [|x p IH]; intros s; simpl.
  - intros [= ->]. exists []. split; [done|constructor].
  - destruct s as [|c s]; [done|].
    destruct (ci_char x c) eqn:Hc; [|done].
    intros (a & -> & Ha)%IH. exists (c :: a). split; [done|].
    by constructor.
Qed.

Lemma lit_ci_complete (p a r : str) :
  ci_eq p a → lit_ci p (a ++ r) = Some r.
Proof.
  induction 1 as [|x c p a Hc _ IH]; simpl; [by destruct r|].
  by rewrite Hc.
Qed.

Lemma lstrip_spaces (w r : str) :
  Forall (λ c, isspace c = true) w → nospace_head r → lstrip (w ++ r) = r.
Proof.
  intros Hw Hr. induction Hw as [|c w Hc _ IH]; simpl.
  - destruct r as [|c r]; [done|]. simpl in *. by rewrite Hr.
  - by rewrite Hc.
Qed.

Lemma lstrip_split (s : str) :
  ∃ w, s = w ++ lstrip s ∧ Forall (λ c, isspace c = true) w.
Proof.
  induction s as [|c s (w & Hs & Hw)]; simpl.
  - by exists [].
  - destruct (isspace c) eqn:Hc.
    + exists (c :: w). split; [by rewrite Hs at 1|by constructor].
    + by exists [].
Qed.

Lemma ws_plus_sound (s r : str) :
  ws_plus s = Some r → ∃ w, s = w ++ r ∧ spaces w.
Proof.
  destruct s as [|c s]; simpl; [done|].
  destruct (isspace c) eqn:Hc; [|done]. intros [= <-].
  destruct (lstrip_split s) as (w & Hs & Hw).
  exists (c :: w). split; [by rewrite Hs at 1|].
  split; [done|by constructor].
Qed.

Lemma ws_plus_complete (w r : str) :
  spaces w → nospace_head r → ws_plus (w ++ r) = Some r.
Proof.
  intros [Hne Hw] Hr. destruct Hw as [|c w Hc Hw]; [done|]. simpl.
  by rewrite Hc, lstrip_spaces.
Qed.

Lemma until_dq_sound (s g r : str) :
  until_dq s = Some (g, r) → s = g ++ dq :: r ∧ dq ∉ g.
Proof.
  revert g. induction s as [|c s IH]; intros g; simpl; [done|].
  destruct (N.eqb_spec c dq) as [->|Hne].
  - intros [= <- <-]. split; [done|]. by intros ?%elem_of_nil.
  - destruct (until_dq s) as [[g' r']|]; [|done].
    intros [= <- <-]. destruct (IH g' eq_refl) as [-> Hg].
    split; [done|]. rewrite elem_of_cons. by intros [?|?].
Qed.

Lemma until_dq_complete (g r : str) :
  dq ∉ g → until_dq (g ++ dq :: r) = Some (g, r).
Proof.
  induction g as [|c g IH]; simpl; intros Hg.
  - done.
  - apply not_elem_of_cons in Hg as [Hc Hg].
    destruct (N.eqb_spec c dq) as [->|_]; [done|]. by rewrite IH.
Qed.

Lemma ci_char_p_nospace c : ci_char (ch "p") c = true → isspace c = false.
Proof.
  unfold ci_char, lower, isspace. change (ch "p") with 112%N. simpl.
  rewrite !orb_false_r.
  destruct ((65 <=? c)%N && (c <=? 90)%N) eqn:E; intros H%N.eqb_eq.
  - assert (c = 80%N) as -> by lia. done.
  - by subst c.
Qed.

Lemma ci_char_c_nospace c : ci_char (ch "c") c = true → isspace c = false.
Proof.
  unfold ci_char, lower, isspace. change (ch "c") with 99%N. simpl.
  rewrite !orb_false_r.
  destruct ((65 <=? c)%N && (c <=? 90)%N) eqn:E; intros H%N.eqb_eq.
  - assert (c = 67%N) as -> by lia. done.
  - by subst c.
Qed.

Lemma match_og_video_marker (s v : str) :
  match_og_video s = Some v ↔ og_video_marker s v.
Proof.
  unfold match_og_video, og_video_marker. split.
  - intros H.
    apply bind_Some in H as (s1 & H1 & H).
    apply bind_Some in H as (s2 & H2 & H).
    apply bind_Some in H as (s3 & H3 & H).
    apply bind_Some in H as (s4 & H4 & H).
    apply bind_Some in H as (s5 & H5 & H).
    unfold group_dq in H.
    destruct (until_dq s5) as [[[|c g] r]|] eqn:H6; [done| |done].
    injection H as <-.
    apply lit_ci_sound in H1 as (a & -> & Ha).
    apply ws_plus_sound in H2 as (w1 & -> & Hw1).
    apply lit_ci_sound in H3 as (b & -> & Hb).
    apply ws_plus_sound in H4 as (w2 & -> & Hw2).
    apply lit_ci_sound in H5 as (c' & -> & Hc).
    apply until_dq_sound in H6 as [-> Hg].
    exists a, w1, b, w2, c', r. by split_and!.
  - intros (a & w1 & b & w2 & c & r & -> & Ha & Hw1 & Hb & Hw2 & Hc & Hv & Hq).
    apply bind_Some. eexists. split; [by apply lit_ci_complete|].
    apply bind_Some. eexists. split.
    { apply ws_plus_complete; [done|].
      inversion Hb as [|x y p' b' Hxy]; subst.
      by apply ci_char_p_nospace. }
    apply bind_Some. eexists. split; [by apply lit_ci_complete|].
    apply bind_Some. eexists. split.
    { apply ws_plus_complete; [done|].
      inversion Hc as [|x y p' c' Hxy]; subst.
      by apply ci_char_c_nospace. }
    apply bind_Some. eexists. split; [by apply lit_ci_complete|].
    unfold group_dq. rewrite until_dq_complete by done.
    by destruct v.
Qed.

Lemma re_search_cons c (t : str) :
  re_search (c :: t)
  = match match_og_video (c :: t) with
    | Some g => Some g
    | None => re_search t
    end.
Proof. done. Qed.

Lemma no_marker_nil v : ¬ og_video_marker [] v.
Proof. by intros ?%match_og_video_marker. Qed.

Lemma re_search_leftmost (html v : str) :
  re_search html = Some v
  ↔ ∃ k, marker_at html k v ∧ ∀ j v', j < k → ¬ marker_at html j v'.
Proof.
  revert v. induction html as [|c t IH]; intros v.
  - split; [done|]. intros (k & [_ Hm] & _). rewrite drop_nil in Hm.
    by apply no_marker_nil in Hm.
  - rewrite re_search_cons.
    destruct (match_og_video (c :: t)) as [g|] eqn:E.
    + split.
      * intros [= ->]. exists 0. split; [|intros; lia].
        split; [simpl; lia|]. by apply match_og_video_marker.
      * intros (k & [Hk Hm] & Hleft). destruct k as [|k].
        -- apply match_og_video_marker in Hm. simpl in Hm. congruence.
        -- destruct (Hleft 0 g); [lia|]. split; [simpl; lia|].
           by apply match_og_video_marker.
    + rewrite IH. split.
      * intros (k & [Hk Hm] & Hleft). exists (S k). split.
        { split; [simpl; lia|done]. }
        intros j v' Hj [Hj1 Hj2]. destruct j as [|j].
        -- apply match_og_video_marker in Hj2. simpl in Hj2. congruence.
        -- apply (Hleft j v'); [lia|]. split; [simpl in Hj1; lia|done].
      * intros (k & [Hk Hm] & Hleft). destruct k as [|k].
        -- apply match_og_video_marker in Hm. simpl in Hm. congruence.
        -- exists k. split; [split; [simpl in Hk; lia|done]|].
           intros j v' Hj [Hj1 Hj2]. apply (Hleft (S j) v'); [lia|].
           split; [simpl; lia|done].
Qed.

Lemma re_search_none (html : str) :
  re_search html = None ↔ ∀ k v, ¬ marker_at html k v.
Proof.
  induction html as [|c t IH].
  - split; [|done]. intros _ k v [_ Hm]. rewrite drop_nil in Hm.
    by apply no_marker_nil in Hm.
  - rewrite re_search_cons.
    destruct (match_og_video (c :: t)) as [g|] eqn:E.
    + split; [done|]. intros H. destruct (H 0 g).
      split; [simpl; lia|]. by apply match_og_video_marker.
    + rewrite IH. split.
      * intros H k v [Hk Hm]. destruct k as [|k].
        -- apply match_og_video_marker in Hm. simpl in Hm. congruence.
        -- apply (H k v). split; [simpl in Hk; lia|done].
      * intros H k v [Hk Hm]. apply (H (S k) v).
        split; [simpl; lia|done].
Qed.

(** C7. The extractor returns the content value of the leftmost occurrence
    of the og:video marker, letters matched without regard to case; it
    returns [None] exactly when the document holds no such marker; it is a
    total function, so it never raises. *)
Theorem extract_og_video_first_marker :
  (∀ html v,
     _extract_og_video html = Some v
     ↔ ∃ k, marker_at html k v ∧ ∀ j v', j < k → ¬ marker_at html j v')
  ∧ (∀ html, _extract_og_video html = None ↔ ∀ k v, ¬ marker_at html k v)
  ∧ _extract_og_video og_doc = Some (u "https://x/y.mp4")
  ∧ _extract_og_video og_doc_upper = Some (u "https://x/y.mp4")
  ∧ _extract_og_video (u "<html><head></head></html>") = None.
Proof.
  split_and!; [apply re_search_leftmost|apply re_search_none|done..].
Qed.

(** The marker of the example document sits at position 0. *)
Lemma extract_og_video_first_marker_witness :
  ∃ k, marker_at og_doc k (u "https://x/y.mp4")
       ∧ ∀ j v', j < k → ¬ marker_at og_doc j v'.
Proof.
  apply (proj1 (proj1 extract_og_video_first_marker og_doc
                  (u "https://x/y.mp4"))).
  reflexivity.
Defined.

(** ** The monad *)

Lemma run_bind {A B} (m : M A) (k : A → M B) w tr :
  run (m ≫= k) w tr
  = match run m w tr with
    | (tr', Return a) => run (k a) w tr'
    | (tr', Raise e) => (tr', Raise e)
    | (tr', Diverge) => (tr', Diverge)
    end.
Proof. done. Qed.

Lemma run_ret {A} (a : A) w tr : run (mret a) w tr = (tr, Return a).
Proof. done. Qed.

Lemma run_engine c w tr :
  run (engine c) w tr
  = (tr ++ [c], if fails w (length tr) then Raise (EngineError c)
                else Return ()).
Proof. done. Qed.

Lemma parse_cookies_total (h : str) : ∃ cs, parse_cookies h = Some cs.
Proof.
  unfold parse_cookies.
  destruct (cookie_loop_spec (split (ch ";") h) []) as (cs & -> & _).
  by exists cs.
Qed.

Lemma run_install_cookies chd w tr :
  run (install_cookies chd) w tr
  = (tr ++ cookie_calls chd,
     match cookie_calls chd with
     | c :: _ => if fails w (length tr) then Raise (EngineError c)
                 else Return ()
     | [] => Return ()
     end).
Proof.
  unfold install_cookies, cookie_calls.
  destruct chd as [h|]; simpl; [|by rewrite app_nil_r].
  destruct h as [|c0 h0]; simpl; [by rewrite app_nil_r|].
  destruct (parse_cookies_total (c0 :: h0)) as (cs & ->). simpl.
  destruct cs; simpl; [by rewrite app_nil_r|done].
Qed.

(** ** Postconditions *)

Section sat.
Context (P : call → Prop).

Lemma sat_ret {A} (a : A) (V : world → A → Prop) :
  (∀ w, V w a) → sat (mret a) P V.
Proof.
  intros H w tr. exists []. rewrite app_nil_r. simpl.
  split_and!; [done|by constructor|apply H].
Qed.

Lemma sat_raise {A} e (V : world → A → Prop) : sat (raise e) P V.
Proof. intros w tr. exists []. by rewrite app_nil_r. Qed.

Lemma sat_ask : sat ask P (λ w a, a = w).
Proof. intros w tr. exists []. by rewrite app_nil_r. Qed.

Lemma sat_engine c : P c → sat (engine c) P (λ _ _, True).
Proof.
  intros H w tr. exists [c]. simpl.
  split_and!; [done|by constructor|by destruct (fails w _)].
Qed.

Lemma sat_bind {A B} (m : M A) (k : A → M B) V1 V2 :
  sat m P V1 →
  (∀ a, sat (k a) P (λ w b, V1 w a → V2 w b)) →
  sat (m ≫= k) P V2.
Proof.
  intros Hm Hk w tr. rewrite run_bind.
  destruct (Hm w tr) as (a1 & Htr & HP & HV).
  destruct (run m w tr) as [tr1 [a|e|]]; simpl in *; subst tr1.
  - destruct (Hk a w (tr ++ a1)) as (a2 & Htr2 & HP2 & HV2).
    exists (a1 ++ a2). rewrite Htr2, app_assoc.
    split_and!; [done|by apply Forall_app|].
    destruct (run (k a) w (tr ++ a1)).2; auto.
  - by exists a1.
  - done.
Qed.

Lemma sat_weaken {A} (m : M A) (V V' : world → A → Prop) :
  sat m P V → (∀ w a, V w a → V' w a) → sat m P V'.
Proof.
  intros Hm HV w tr. destruct (Hm w tr) as (a & ? & ? & H).
  exists a. split_and!; [done..|].
  destruct (run m w tr).2; auto.
Qed.

Lemma sat_seq {A B} (m : M A) (k : M B) V1 V2 :
  sat m P V1 → sat k P V2 → sat (m ≫= λ _, k) P V2.
Proof.
  intros Hm Hk. apply (sat_bind _ _ V1); [done|].
  intros a. eapply sat_weaken; [done|auto].
Qed.

Lemma sat_install_cookies chd :
  (∀ cs, P (Add_cookies cs)) → sat (install_cookies chd) P (λ _ _, True).
Proof.
  intros H w tr. rewrite run_install_cookies.
  exists (cookie_calls chd). simpl. split_and!; [done| |].
  - unfold cookie_calls. repeat case_match; by repeat constructor.
  - destruct (cookie_calls chd); [done|]. by destruct (fails w _).
Qed.

Lemma with_sync_playwright_spec {A} (body : M A) V w tr :
  sat body P V →
  ∃ added,
    (run (with_sync_playwright body) w tr).1
    = tr ++ Sync_playwright_enter :: added
    ∧ Forall (λ c, P c ∨ c = Sync_playwright_exit) added
    ∧ match (run (with_sync_playwright body) w tr).2 with
      | Return a => V w a
      | Raise _ => True
      | Diverge => False
      end.
Proof.
  intros Hb. unfold with_sync_playwright. cbn [run].
  rewrite !run_engine.
  destruct (fails w (length tr)).
  { exists []. by split_and!. }
  destruct (Hb w (tr ++ [Sync_playwright_enter])) as (a1 & Htr & HP & HV).
  destruct (run body w _) as [tr1 [a|e|]]; simpl in *; subst tr1.
  - exists (a1 ++ [Sync_playwright_exit]).
    rewrite ?run_engine.
    destruct (fails w _); simpl; rewrite <-!app_assoc; simpl;
      (split_and!; [done| |done]);
      (apply Forall_app; split;
       [eapply Forall_impl; [done|by left]|by repeat constructor]).
  - exists (a1 ++ [Sync_playwright_exit]).
    rewrite ?run_engine.
    destruct (fails w _); simpl; rewrite <-!app_assoc; simpl;
      (split_and!; [done| |done]);
      (apply Forall_app; split;
       [eapply Forall_impl; [done|by left]|by repeat constructor]).
  - done.
Qed.
End sat.

(** ** [_playwright_fetch_html] *)

Lemma fetch_html_spec url chd w tr :
  ∃ added r,
    run (_playwright_fetch_html url chd) w tr
    = (tr ++ Sync_playwright_enter :: added, r)
    ∧ (Sync_playwright_enter ∉ added)
    ∧ r ≠ Diverge
    ∧ (∀ html, r = Return html → html = page_content w).
Proof.
  unfold _playwright_fetch_html.
  match goal with
  | |- context [with_sync_playwright ?b] =>
      assert (Hsat : sat b (λ c, c ≠ Sync_playwright_enter)
                       (λ w html, html = page_content w))
  end.
  { repeat (first
      [ apply sat_seq with (V1 := λ _ _, True)
      | apply sat_engine; done
      | apply sat_install_cookies; done ]).
    apply (sat_bind _ _ _ (λ w a, a = w)); [apply sat_ask|].
    intros w0.
    repeat (apply sat_seq with (V1 := λ _ _, True); [by apply sat_engine|]).
    apply sat_ret. by intros ? ->. }
  destruct (with_sync_playwright_spec _ _ _ w tr Hsat)
    as (added & Htr & HP & HV).
  eexists added, _. split_and!.
  - rewrite <-Htr. apply surjective_pairing.
  - intros Hin. rewrite Forall_forall in HP.
    by destruct (HP _ Hin) as [?|?].
  - intros Hr. by rewrite Hr in HV.
  - intros html Hr. rewrite Hr in HV. exact HV.
Qed.

Lemma run_engine_quiet c w tr :
  (∀ i, fails w i = false) → run (engine c) w tr = (tr ++ [c], Return ()).
Proof. intros H. by rewrite run_engine, H. Qed.

Lemma run_install_cookies_quiet chd w tr :
  (∀ i, fails w i = false) →
  run (install_cookies chd) w tr = (tr ++ cookie_calls chd, Return ()).
Proof.
  intros H. rewrite run_install_cookies, H. by destruct (cookie_calls chd).
Qed.

Lemma run_with_quiet {A} (body : M A) w tr tr2 r :
  (∀ i, fails w i = false) →
  run body w (tr ++ [Sync_playwright_enter]) = (tr2, r) →
  run (with_sync_playwright body) w tr
  = match r with
    | Diverge => (tr2, Diverge)
    | _ => (tr2 ++ [Sync_playwright_exit], r)
    end.
Proof.
  intros H Hb. unfold with_sync_playwright. cbn [run].
  rewrite run_engine_quiet, Hb by done.
  destruct r; [|by rewrite run_engine_quiet|done].
  by rewrite run_engine_quiet.
Qed.

Lemma fetch_html_quiet url chd w tr :
  (∀ i, fails w i = false) →
  run (_playwright_fetch_html url chd) w tr
  = (tr ++ [Sync_playwright_enter; Chromium_launch; New_context]
        ++ cookie_calls chd
        ++ [New_page; Goto url; Wait_for_timeout 1500; Content;
            Context_close; Browser_close; Sync_playwright_exit],
     Return (page_content w)).
Proof.
  intros H. unfold _playwright_fetch_html.
  erewrite run_with_quiet; [|done|].
  2:{ repeat (rewrite run_bind;
              rewrite ?run_engine_quiet, ?run_install_cookies_quiet by done).
      cbn. rewrite !H. reflexivity. }
  cbn. by rewrite <-!app_assoc.
Qed.

(** ** [resolve_direct_mp4] *)

Lemma extract_nonempty (html v : str) :
  _extract_og_video html = Some v → truthy (Some v) = true.
Proof.
  intros (k & [_ Hm] & _)%re_search_leftmost.
  destruct Hm as (? & ? & ? & ? & ? & ? & _ & _ & _ & _ & _ & _ & Hv & _).
  by destruct v.
Qed.

Lemma run_build_result reel_url mp4 w tr :
  run (build_result reel_url mp4) w tr
  = (tr, if fields_ok w reel_url mp4 then Return (result_for w reel_url mp4)
         else Raise ValidationError).
Proof.
  unfold build_result, result_for, filename_of, fields_ok, http_url_ok.
  destruct (vid_id_total mp4) as (v & Hv). rewrite Hv. cbn.
  by destruct (HttpUrl w reel_url), (HttpUrl w mp4).
Qed.

Lemma run_try_fast_path p w tr :
  run (try_fast_path p) w tr
  = (tr ++ [fast_request w p],
     Return (match fast_path_url w with
             | Some mp4 => if fields_ok w (reel_url p) mp4
                           then Some (result_for w (reel_url p) mp4)
                           else None
             | None => None
             end)).
Proof.
  unfold try_fast_path, try_except, fast_path_url, fast_request.
  cbn [run]. rewrite run_bind. cbn -[_extract_og_video build_result].
  destruct (http_reply w) as [st body|]; [|done].
  destruct (400 <=? st)%Z; [done|].
  destruct (_extract_og_video body) as [m|] eqn:He; [|done].
  rewrite (extract_nonempty _ _ He).
  rewrite run_bind, run_build_result.
  by destruct (fields_ok w (reel_url p) m).
Qed.

Lemma run_resolve_fallback p w tr :
  (match fast_path_url w with
   | Some mp4 => fields_ok w (reel_url p) mp4 = false
   | None => True
   end) →
  run (resolve_direct_mp4 p) w tr
  = match run (_playwright_fetch_html (reel_url p) (cookie_header p)) w
            (tr ++ [fast_request w p]) with
    | (tr', Return html2) =>
        match _extract_og_video html2 with
        | Some m => (tr', if fields_ok w (reel_url p) m
                          then Return (result_for w (reel_url p) m)
                          else Raise ValidationError)
        | None => (tr', Raise (HTTPException 502 Could_not_resolve))
        end
    | (tr', Raise e) => (tr', Raise e)
    | (tr', Diverge) => (tr', Diverge)
    end.
Proof.
  intros Hf. unfold resolve_direct_mp4.
  rewrite run_bind, run_try_fast_path.
  assert (match fast_path_url w with
          | Some mp4 => if fields_ok w (reel_url p) mp4
                        then Some (result_for w (reel_url p) mp4) else None
          | None => None
          end = None) as ->.
  { destruct (fast_path_url w); [by rewrite Hf|done]. }
  rewrite run_bind.
  destruct (run (_playwright_fetch_html _ _) w _) as [tr' [html2| |]];
    [|done..].
  destruct (_extract_og_video html2) as [m|] eqn:He; [|done].
  by rewrite (extract_nonempty _ _ He), run_build_result.
Qed.

Lemma run_resolve_fast p w tr mp4 :
  fast_path_url w = Some mp4 →
  fields_ok w (reel_url p) mp4 = true →
  run (resolve_direct_mp4 p) w tr
  = (tr ++ [fast_request w p], Return (result_for w (reel_url p) mp4)).
Proof.
  intros Hf Hok. unfold resolve_direct_mp4.
  by rewrite run_bind, run_try_fast_path, Hf, Hok.
Qed.

Lemma invocations_app tr1 tr2 :
  invocations (tr1 ++ tr2) = invocations tr1 + invocations tr2.
Proof. apply count_occ_app. Qed.

Lemma invocations_none tr :
  Sync_playwright_enter ∉ tr → invocations tr = 0.
Proof.
  intros H. apply count_occ_not_In. by rewrite <-list_elem_of_In.
Qed.

Lemma invocations_fallback p w :
  (match fast_path_url w with
   | Some mp4 => fields_ok w (reel_url p) mp4 = false
   | None => True
   end) →
  invocations (run (resolve_direct_mp4 p) w []).1 = 1.
Proof.
  intros Hf. rewrite (run_resolve_fallback _ _ _ Hf).
  destruct (fetch_html_spec (reel_url p) (cookie_header p) w
              ([] ++ [fast_request w p]))
    as (added & r & -> & Hadd & _ & _).
  assert (invocations (([] ++ [fast_request w p])
                         ++ Sync_playwright_enter :: added) = 1) as Hone.
  { rewrite invocations_app. unfold invocations at 2.
    rewrite count_occ_cons_eq by done.
    fold (invocations added). by rewrite (invocations_none added). }
  destruct r as [html2| |]; [|done..].
  by destruct (_extract_og_video html2).
Qed.

(** C4, as stated, fails: the fetch succeeds and the extraction yields a
    URL, yet the rendered-page resolver is invoked. The URL extracted is
    refused by the validation of the result; the error is raised inside the
    [try] statement, swallowed, and the fallback runs. *)
Lemma orchestrator_fallback_counterexample :
  ∃ st body mp4,
    http_reply (world_refused (u "https://x/y.mp4")) = Response st body
    ∧ (st < 400)%Z
    ∧ _extract_og_video body = Some mp4
    ∧ mp4 ≠ []
    ∧ invocations
        (run (resolve_direct_mp4 payload0)
           (world_refused (u "https://x/y.mp4")) []).1 = 1.
Proof.
  exists 200%Z, (page_with (u "ftp://x/y.mp4")), (u "ftp://x/y.mp4").
  split_and!; [done|lia|by vm_compute|done|by vm_compute].
Qed.

(** C4, amended. When the fetch of the fast path answers a status of 400 or
    more, or fails in transport, or answers a page from which no media URL
    is extracted, or a page whose media URL the validation of the result
    refuses, the rendered-page resolver is invoked exactly once; when the
    fetch succeeds and the extraction yields a URL that the validation
    accepts, the result is returned with no call but the fetch, and the
    rendered-page resolver is not invoked. *)
Theorem orchestrator_fallback (p : ResolveIn) (w : world) :
  (∀ st body, http_reply w = Response st body → (400 ≤ st)%Z →
     invocations (run (resolve_direct_mp4 p) w []).1 = 1)
  ∧ (http_reply w = Transport_failure →
     invocations (run (resolve_direct_mp4 p) w []).1 = 1)
  ∧ (∀ st body, http_reply w = Response st body → (st < 400)%Z →
     _extract_og_video body = None →
     invocations (run (resolve_direct_mp4 p) w []).1 = 1)
  ∧ (∀ st body mp4, http_reply w = Response st body → (st < 400)%Z →
     _extract_og_video body = Some mp4 →
     fields_ok w (reel_url p) mp4 = false →
     invocations (run (resolve_direct_mp4 p) w []).1 = 1)
  ∧ (∀ st body mp4, http_reply w = Response st body → (st < 400)%Z →
     _extract_og_video body = Some mp4 →
     fields_ok w (reel_url p) mp4 = true →
     (∃ out url,
        run (resolve_direct_mp4 p) w [] = ([fast_request w p], Return out)
        ∧ HttpUrl w mp4 = Some url ∧ mp4_url out = Some url)
     ∧ invocations (run (resolve_direct_mp4 p) w []).1 = 0).
Proof.
  assert (∀ st body mp4, http_reply w = Response st body → (st < 400)%Z →
            _extract_og_video body = Some mp4 →
            fast_path_url w = Some mp4) as Hfast.
  { intros st body mp4 Hr Hst He. unfold fast_path_url. rewrite Hr.
    by destruct (Z.leb_spec 400 st); [lia|]. }
  split_and!.
  - intros st body Hr Hst. apply invocations_fallback.
    unfold fast_path_url. rewrite Hr.
    by destruct (Z.leb_spec 400 st); [|lia].
  - intros Hr. apply invocations_fallback.
    unfold fast_path_url. by rewrite Hr.
  - intros st body Hr Hst He. apply invocations_fallback.
    unfold fast_path_url. rewrite Hr, He.
    by destruct (400 <=? st)%Z.
  - intros st body mp4 Hr Hst He Hok. apply invocations_fallback.
    by rewrite (Hfast st body mp4).
  - intros st body mp4 Hr Hst He Hok.
    rewrite (run_resolve_fast p w [] mp4 (Hfast st body mp4 Hr Hst He) Hok).
    split; [|done].
    unfold fields_ok, http_url_ok in Hok.
    destruct (HttpUrl w mp4) as [url|] eqn:Hu;
      [|by destruct (HttpUrl w (reel_url p))].
    exists (result_for w (reel_url p) mp4), url. split_and!; [done..|].
    simpl. exact Hu.
Qed.

(** A fetch answered 404 makes one invocation of the rendered-page
    resolver. *)
Lemma orchestrator_fallback_witness :
  invocations
    (run (resolve_direct_mp4 payload0) (world_404 (u "https://x/y.mp4")) []).1
  = 1.
Proof.
  apply (proj1 (orchestrator_fallback payload0
                  (world_404 (u "https://x/y.mp4"))) 404%Z []);
    [reflexivity|lia].
Defined.

Lemma fast_path_url_nonempty w mp4 :
  fast_path_url w = Some mp4 → mp4 ≠ [].
Proof.
  unfold fast_path_url. destruct (http_reply w) as [st body|]; [|done].
  destruct (400 <=? st)%Z; [done|].
  intros H%extract_nonempty. by destruct mp4.
Qed.

(** What a returned result looks like, whatever the path. *)
Lemma resolve_returns p w tr :
  match (run (resolve_direct_mp4 p) w tr).2 with
  | Return out =>
      ∃ mp4, out = result_for w (reel_url p) mp4 ∧ mp4 ≠ []
             ∧ fields_ok w (reel_url p) mp4 = true
             ∧ (fast_path_url w = Some mp4
                ∨ _extract_og_video (page_content w) = Some mp4)
  | Raise e => True
  | Diverge => False
  end.
Proof.
  destruct (fast_path_url w) as [mp4|] eqn:Hf.
  - destruct (fields_ok w (reel_url p) mp4) eqn:Hok.
    + rewrite (run_resolve_fast p w tr mp4 Hf Hok). simpl.
      exists mp4. split_and!; [done| |done|by left].
      by eapply fast_path_url_nonempty.
    + rewrite run_resolve_fallback by (by rewrite Hf).
      destruct (fetch_html_spec (reel_url p) (cookie_header p) w
                  (tr ++ [fast_request w p]))
        as (added & r & -> & _ & Hd & Hret).
      destruct r as [html2| |]; [|done..].
      rewrite (Hret html2 eq_refl).
      destruct (_extract_og_video (page_content w)) as [m|] eqn:He; [|done].
      simpl. destruct (fields_ok w (reel_url p) m) eqn:Hokm; [|done].
      exists m. split_and!; [done| |done|by right].
      apply extract_nonempty in He. by destruct m.
  - rewrite run_resolve_fallback by (by rewrite Hf).
    destruct (fetch_html_spec (reel_url p) (cookie_header p) w
                (tr ++ [fast_request w p]))
      as (added & r & -> & _ & Hd & Hret).
    destruct r as [html2| |]; [|done..].
    rewrite (Hret html2 eq_refl).
    destruct (_extract_og_video (page_content w)) as [m|] eqn:He; [|done].
    simpl. destruct (fields_ok w (reel_url p) m) eqn:Hokm; [|done].
    exists m. split_and!; [done| |done|by right].
    apply extract_nonempty in He. by destruct m.
Qed.

(** ** File name of the result *)

Lemma split_fragment_no_sep (sep : N) (s : str) :
  Forall (λ f, contains_char sep f = false) (split sep s).
Proof.
  induction s as [|x s IH]; simpl; [by repeat constructor|].
  destruct (N.eqb_spec x sep) as [->|Hne]; [by constructor|].
  destruct (split sep s) as [|f fs] eqn:Hs.
  { by destruct (split_nonempty sep s). }
  apply Forall_cons in IH as [Hf Hfs]. constructor; [|done].
  simpl. rewrite Hf. by apply N.eqb_neq in Hne as ->.
Qed.

Lemma split_join (sep : N) (s : str) : join sep (split sep s) = s.
Proof.
  induction s as [|x s IH]; simpl; [done|].
  destruct (split sep s) as [|f0 fs] eqn:Hs.
  { by destruct (split_nonempty sep s). }
  destruct (N.eqb_spec x sep) as [->|Hne].
  - change (join sep ([] :: f0 :: fs)) with (sep :: join sep (f0 :: fs)).
    by rewrite IH.
  - destruct fs; simpl in *; by rewrite IH.
Qed.

Lemma join_snoc (sep : N) (l : list str) (f : str) :
  l ≠ [] → join sep (l ++ [f]) = join sep l ++ sep :: f.
Proof.
  induction l as [|f0 [|f1 l] IH]; [done|done|]. intros _.
  change (join sep ((f0 :: f1 :: l) ++ [f]))
    with (f0 ++ sep :: join sep ((f1 :: l) ++ [f])).
  rewrite IH by done.
  change (join sep (f0 :: f1 :: l)) with (f0 ++ sep :: join sep (f1 :: l)).
  by rewrite <-app_assoc.
Qed.

(** The last fragment of a split holds no separator and ends the string,
    just after a separator when there is one before it. *)
Lemma split_last_cut (sep : N) (s seg : str) :
  last (split sep s) = Some seg →
  (sep ∉ seg) ∧ (s = seg ∨ ∃ dir, s = dir ++ sep :: seg).
Proof.
  intros Hl. split.
  - pose proof (split_fragment_no_sep sep s) as HF.
    rewrite Forall_forall in HF.
    apply last_Some_elem_of in Hl. apply HF in Hl.
    intros ?%contains_char_elem. congruence.
  - pose proof (split_join sep s) as Hj.
    destruct (split sep s) as [|f fs _] using rev_ind; [done|].
    rewrite last_snoc in Hl. injection Hl as ->.
    destruct fs as [|f0 fs]; [by left|right].
    rewrite join_snoc in Hj by done. eauto.
Qed.

(** The first fragment of a split holds no separator and starts the
    string, just before a separator when there is one after it. *)
Lemma split_head_cut (sep : N) (s stem : str) :
  head (split sep s) = Some stem →
  (sep ∉ stem) ∧ (s = stem ∨ ∃ rest, s = stem ++ sep :: rest).
Proof.
  intros Hh. split.
  - pose proof (split_fragment_no_sep sep s) as HF.
    rewrite Forall_forall in HF.
    apply head_Some_elem_of in Hh. apply HF in Hh.
    intros ?%contains_char_elem. congruence.
  - pose proof (split_join sep s) as Hj.
    destruct (split sep s) as [|f [|f1 l]]; [done| |];
      injection Hh as ->.
    + by left.
    + right. by exists (join sep (f1 :: l)).
Qed.

(** The [vid_id] of the code is the stem of the URL. *)
Lemma vid_id_stem (mp4 : str) :
  ∃ stem, vid_id mp4 = Some stem ∧ url_stem mp4 stem.
Proof.
  unfold vid_id, item_last, item_first.
  destruct (last (split (ch "/") mp4)) as [seg|] eqn:Hl.
  2:{ apply last_None in Hl. by destruct (split_nonempty (ch "/") mp4). }
  destruct (head (split (ch "?") seg)) as [stem|] eqn:Hh.
  2:{ apply head_None in Hh. by destruct (split_nonempty (ch "?") seg). }
  exists stem. split; [simpl; by rewrite Hh|].
  destruct (split_last_cut _ _ _ Hl) as [Hns Hs].
  destruct (split_head_cut _ _ _ Hh) as [Hnq Hq].
  assert (∃ rest, seg = stem ++ rest
                  ∧ (rest = [] ∨ ∃ query, rest = ch "?" :: query))
    as (rest & -> & Hrest).
  { destruct Hq as [->|(r & ->)].
    - exists []. rewrite app_nil_r. by split; [|left].
    - exists (ch "?" :: r). split; [done|right; by exists r]. }
  destruct Hs as [->|(dir & ->)].
  - exists [], rest. by split_and!; [|left|..].
  - exists (dir ++ [ch "/"]), rest. rewrite <-app_assoc.
    by split_and!; [|right; exists dir|..].
Qed.

(** C9, as stated, fails in its words on the file name: the file name is
    not derived from the [mp4_url] of the result. Two pages that declare
    [https://x] and [https://x/] give results with the same [mp4_url],
    since the validation gives the first the path [/], and with different
    file names. *)
Lemma resolve_filename_counterexample :
  ∃ out1 out2,
    (run (resolve_direct_mp4 payload0) (world_slash (u "https://x")) []).2
    = Return out1
    ∧ (run (resolve_direct_mp4 payload0) (world_slash (u "https://x/")) []).2
      = Return out2
    ∧ mp4_url out1 = Some (u "https://x/")
    ∧ mp4_url out2 = Some (u "https://x/")
    ∧ filename out1 = Some (u "x.mp4")
    ∧ filename out2 = Some (u ".mp4").
Proof.
  eexists _, _. split_and!; [by vm_compute|by vm_compute|done..].
Qed.

(** C9, amended. The resolve operation returns a result whose media URL is
    populated with the validated form of the media URL extracted from the
    fetched or the rendered page, whose file name is the stem of the
    extracted URL followed by [.mp4], and whose title is absent, or it
    raises; it does nothing else. When neither the fetched page nor the
    rendered page yields a media URL it raises, and the error is the 502
    of line 158 when the engine itself does not fail. *)
Theorem resolve_no_partial_success (p : ResolveIn) (w : world)
    (tr : list call) :
  match (run (resolve_direct_mp4 p) w tr).2 with
  | Return out =>
      ∃ mp4 url stem,
        (fast_path_url w = Some mp4
         ∨ _extract_og_video (page_content w) = Some mp4)
        ∧ mp4 ≠ []
        ∧ HttpUrl w mp4 = Some url ∧ mp4_url out = Some url
        ∧ url_stem mp4 stem ∧ filename out = Some (stem ++ u ".mp4")
        ∧ title out = None
  | Raise e =>
      fast_path_url w = None →
      _extract_og_video (page_content w) = None →
      (∀ i, fails w i = false) →
      e = HTTPException 502 Could_not_resolve
  | Diverge => False
  end
  ∧ (fast_path_url w = None →
     _extract_og_video (page_content w) = None →
     ∃ e, (run (resolve_direct_mp4 p) w tr).2 = Raise e).
Proof.
  pose proof (resolve_returns p w tr) as H.
  destruct (run (resolve_direct_mp4 p) w tr).2 as [out|e|] eqn:Hr;
    [| |done].
  - destruct H as (mp4 & -> & Hne & Hok & Hsrc). split.
    + unfold fields_ok, http_url_ok in Hok.
      destruct (HttpUrl w mp4) as [url|] eqn:Hu;
        [|by destruct (HttpUrl w (reel_url p))].
      destruct (vid_id_stem mp4) as (stem & Hv & Hstem).
      exists mp4, url, stem. split_and!; try done.
      simpl. unfold filename_of. by rewrite Hv.
    + intros Hf He. destruct Hsrc; congruence.
  - split; [|by eauto]. intros Hf He Hq.
    rewrite run_resolve_fallback in Hr by (by rewrite Hf).
    rewrite fetch_html_quiet, He in Hr by done.
    simpl in Hr. congruence.
Qed.

(** Neither page declares a media URL: the call raises. *)
Lemma resolve_no_partial_success_witness :
  ∃ e, (run (resolve_direct_mp4 payload0) world_none []).2 = Raise e.
Proof.
  apply (proj2 (resolve_no_partial_success payload0 world_none []));
    reflexivity.
Defined.




(** ** Closing the session *)

(** On the path where nothing fails, context and browser are closed once
    each, context first, before the scope is left. *)
Lemma fetch_html_closes_on_success url chd w :
  (∀ i, fails w i = false) →
  ∃ tr, run (_playwright_fetch_html url chd) w []
        = (tr ++ [Context_close; Browser_close; Sync_playwright_exit],
           Return (page_content w))
        ∧ (Context_close ∉ tr) ∧ (Browser_close ∉ tr).
Proof.
  intros H. rewrite fetch_html_quiet by done.
  exists ([Sync_playwright_enter; Chromium_launch; New_context]
            ++ cookie_calls chd
            ++ [New_page; Goto url; Wait_for_timeout 1500; Content]).
  split; [by rewrite <-!app_assoc|].
  unfold cookie_calls.
  split; repeat case_match; simpl;
    rewrite !elem_of_cons, elem_of_nil; intuition discriminate.
Qed.

(** C8, at the failing input. When the navigation times out, the resolver
    and the collector propagate the error having called neither
    [context.close()] nor [browser.close()]: after the failed [goto] the
    only call is the exit of the [sync_playwright()] scope. *)
Theorem session_not_closed_on_navigation_timeout (w : world) (url : str)
    (fuel : nat) (username : str) (max_count : option Z) :
  (∀ i, i < 4 → fails w i = false) →
  fails w 4 = true →
  (∃ e, run (_playwright_fetch_html url None) w []
        = ([Sync_playwright_enter; Chromium_launch; New_context; New_page;
            Goto url; Sync_playwright_exit], Raise e))
  ∧ (∃ e, run (_playwright_collect_reels fuel username max_count None) w []
          = ([Sync_playwright_enter; Chromium_launch; New_context; New_page;
              Goto (reels_url_of username); Sync_playwright_exit], Raise e)).
Proof.
  intros Hok Hfail.
  unfold _playwright_fetch_html, _playwright_collect_reels,
    with_sync_playwright.
  cbn -[reels_url_of while_true].
  rewrite (Hok 0), (Hok 1), (Hok 2), (Hok 3), Hfail by lia.
  cbn -[reels_url_of while_true].
  destruct (fails w 5); eauto.
Qed.

Lemma session_not_closed_on_navigation_timeout_witness :
  (∃ e, run (_playwright_fetch_html (reel_url payload0) None) world_timeout []
        = ([Sync_playwright_enter; Chromium_launch; New_context; New_page;
            Goto (reel_url payload0); Sync_playwright_exit], Raise e))
  ∧ (∃ e, run (_playwright_collect_reels 0 (u "bob") None None)
            world_timeout []
          = ([Sync_playwright_enter; Chromium_launch; New_context; New_page;
              Goto (reels_url_of (u "bob")); Sync_playwright_exit],
             Raise e)).
Proof.
  apply (session_not_closed_on_navigation_timeout world_timeout
           (reel_url payload0) 0 (u "bob") None).
  - intros i Hi. do 4 (destruct i as [|i]; [reflexivity|]). lia.
  - reflexivity.
Defined.

(** ** The harvest loop *)

Lemma cap_reached_mono (max_count : option Z) (s s' : gset str) :
  s ⊆ s' → cap_reached max_count s = true → cap_reached max_count s' = true.
Proof.
  intros Hs%subseteq_size. unfold cap_reached.
  destruct max_count as [m|]; [|done].
  rewrite !andb_true_iff, !Z.leb_le. intros [? ?]. split; [done|lia].
Qed.

Lemma cap_reached_false_lt (m : Z) (s : gset str) :
  (0 < m)%Z → cap_reached (Some m) s = false → (Z.of_nat (size s) < m)%Z.
Proof.
  intros Hm. unfold cap_reached.
  destruct (Z.eqb_spec m 0); [lia|]. simpl.
  by intros ?%Z.leb_gt.
Qed.

Lemma size_add (x : str) (s : gset str) :
  x ∉ s → size (s ∪ {[x]}) = S (size s).
Proof.
  intros Hx. rewrite size_union by set_solver.
  rewrite size_singleton. lia.
Qed.

Lemma for_hrefs_spec (max_count : option Z) (hrefs : list str)
    (seen : gset str) (new : nat) (seen' : gset str) (new' : nat) :
  for_hrefs max_count hrefs seen new = (seen', new') →
  seen ⊆ seen'
  ∧ seen' ⊆ seen ∪ list_to_set (reel_links hrefs)
  ∧ new' + size seen = new + size seen'
  ∧ (cap_reached max_count seen' = false →
     seen' = seen ∪ list_to_set (reel_links hrefs))
  ∧ (cap_reached max_count seen = false →
     cap_reached max_count seen' = true →
     ∀ m, max_count = Some m → Z.of_nat (size seen') = m).
Proof.
  revert seen new. induction hrefs as [|href rest IH]; intros seen new.
  - simpl. intros [= <- <-]. split_and!; [set_solver..|lia|set_solver|].
    congruence.
  - simpl. fold (is_reel href).
    destruct (is_reel href) eqn:Hr; simpl.
    + assert ((if negb (endswith href (u "/")) then href ++ u "/" else href)
              = canonical href) as ->.
      { unfold canonical. by destruct (endswith href (u "/")). }
      destruct (bool_decide_reflect (canonical href ∈ seen)) as [Hin|Hin];
        simpl.
      * intros H. destruct (IH _ _ H) as (H1 & H2 & H3 & H4 & H5).
        split_and!; [done|set_solver|done| |done].
        intros Hc. rewrite (H4 Hc). set_solver.
      * destruct (cap_reached max_count (seen ∪ {[canonical href]})) eqn:Hc.
        -- intros [= <- <-].
           split_and!; [set_solver|set_solver| | |].
           ++ rewrite size_add by done. lia.
           ++ congruence.
           ++ intros Hc0 _ m ->. rewrite size_add by done.
              unfold cap_reached in Hc, Hc0.
              destruct (Z.eqb_spec m 0); simpl in *; [done|].
              apply Z.leb_le in Hc. apply Z.leb_gt in Hc0.
              rewrite size_add in Hc by done. lia.
        -- intros H. destruct (IH _ _ H) as (H1 & H2 & H3 & H4 & H5).
           split_and!; [set_solver|set_solver| | |].
           ++ rewrite size_add in H3 by done. lia.
           ++ intros Hc'. rewrite (H4 Hc'). set_solver.
           ++ intros _ Hc'. by apply H5.
    + intros H. by destruct (IH _ _ H) as (H1 & H2 & H3 & H4 & H5).
Qed.

Lemma for_hrefs_app (max_count : option Z) (pre rest : list str)
    (seen : gset str) (new : nat) (s1 : gset str) (n1 : nat) :
  for_hrefs max_count pre seen new = (s1, n1) →
  cap_reached max_count s1 = false →
  for_hrefs max_count (pre ++ rest) seen new
  = for_hrefs max_count rest s1 n1.
Proof.
  revert seen new. induction pre as [|href pre IH]; intros seen new; simpl.
  - by intros [= <- <-].
  - destruct (negb (contains (u "/reel/") href)); [by apply IH|].
    destruct (negb (bool_decide _)); [|by apply IH].
    destruct (cap_reached max_count (seen ∪ _)) eqn:Hc; [|by apply IH].
    intros [= <- <-] Hc'. congruence.
Qed.

Lemma reel_links_app a b : reel_links (a ++ b) = reel_links a ++ reel_links b.
Proof.
  induction a as [|h a IH]; simpl; [done|].
  destruct (is_reel h); simpl; by rewrite IH.
Qed.

Lemma discovered_mono w i j : i ≤ j → discovered w i ⊆ discovered w j.
Proof. induction 1; simpl; set_solver. Qed.

(** ** One round of the [while True] loop *)

Lemma while_true_S fuel max_count n seen idle_rounds :
  while_true (S fuel) max_count n seen idle_rounds
  = (engine Eval_on_selector_all;;
     w ← ask;
     let hrefs := page_hrefs w n in
     let '(seen, new) := for_hrefs max_count hrefs seen 0 in
     if cap_reached max_count seen then mret seen
     else
       let idle_rounds := if new =? 0 then idle_rounds + 1 else 0 in
       if idle_limit <=? idle_rounds then mret seen
       else
         engine Evaluate_scroll;;
         engine (Wait_for_timeout 1200);;
         while_true fuel max_count (S n) seen idle_rounds).
Proof. done. Qed.

(** What one round does when none of its engine calls fails. *)
Lemma while_true_step_quiet fuel max_count n seen idle_rounds w tr :
  (∀ i, fails w i = false) →
  run (while_true (S fuel) max_count n seen idle_rounds) w tr
  = let '(seen', new) := for_hrefs max_count (page_hrefs w n) seen 0 in
    if cap_reached max_count seen' then (tr ++ [Eval_on_selector_all],
                                         Return seen')
    else
      let idle' := if new =? 0 then idle_rounds + 1 else 0 in
      if idle_limit <=? idle' then (tr ++ [Eval_on_selector_all],
                                    Return seen')
      else run (while_true fuel max_count (S n) seen' idle') w
             (tr ++ round_calls).
Proof.
  intros H. rewrite while_true_S.
  cbn -[while_true for_hrefs Nat.leb idle_limit]. rewrite H.
  cbn -[while_true for_hrefs Nat.leb idle_limit].
  destruct (for_hrefs max_count (page_hrefs w n) seen 0) as [seen' new].
  destruct (cap_reached max_count seen'); [done|].
  destruct (idle_limit <=? _); [done|].
  cbn -[while_true for_hrefs Nat.leb idle_limit]. rewrite !H.
  cbn -[while_true for_hrefs Nat.leb idle_limit].
  unfold round_calls. by rewrite <-!app_assoc.
Qed.

(** What one round did when the loop returned. *)
Lemma while_true_step_returns fuel max_count n seen idle_rounds w tr tr' S' :
  run (while_true (S fuel) max_count n seen idle_rounds) w tr
  = (tr', Return S') →
  let '(seen', new) := for_hrefs max_count (page_hrefs w n) seen 0 in
  let idle' := if new =? 0 then idle_rounds + 1 else 0 in
  (cap_reached max_count seen' = true
   ∧ tr' = tr ++ [Eval_on_selector_all] ∧ S' = seen')
  ∨ (cap_reached max_count seen' = false ∧ idle_limit ≤ idle'
     ∧ tr' = tr ++ [Eval_on_selector_all] ∧ S' = seen')
  ∨ (cap_reached max_count seen' = false ∧ idle' < idle_limit
     ∧ run (while_true fuel max_count (S n) seen' idle') w
         (tr ++ round_calls) = (tr', Return S')).
Proof.
  rewrite while_true_S.
  cbn -[while_true for_hrefs Nat.leb idle_limit].
  destruct (fails w (length tr)); [done|].
  cbn -[while_true for_hrefs Nat.leb idle_limit].
  destruct (for_hrefs max_count (page_hrefs w n) seen 0) as [seen' new].
  destruct (cap_reached max_count seen').
  { intros [= <- <-]. by left. }
  destruct (Nat.leb_spec idle_limit (if new =? 0 then idle_rounds + 1 else 0)).
  { intros [= <- <-]. right. by left. }
  cbn -[while_true for_hrefs Nat.leb idle_limit].
  destruct (fails w _); [done|].
  cbn -[while_true for_hrefs Nat.leb idle_limit].
  destruct (fails w _); [done|].
  unfold round_calls. rewrite <-!app_assoc. simpl.
  intros Hrun. right. by right.
Qed.

(** ** Order of the output *)

Global Instance str_le_total : Total str_le.
Proof.
  intros a. unfold str_le. induction a as [|x a IH]; intros [|y b]; simpl;
    [by left..|by right|].
  destruct (N.ltb_spec x y), (N.ltb_spec y x); [lia|by left|by right|].
  assert (x = y) as -> by lia. rewrite N.eqb_refl. apply IH.
Qed.

Global Instance str_le_trans : Transitive str_le.
Proof.
  intros a. unfold str_le.
  induction a as [|x a IH]; intros [|y b] [|z c]; simpl; try done.
  destruct (N.ltb_spec x y), (N.ltb_spec y z), (N.ltb_spec x z);
    try done; try lia.
  - destruct (N.eqb_spec y z); [lia|done].
  - destruct (N.eqb_spec x y); [lia|done].
  - destruct (N.eqb_spec x y); [|done]. destruct (N.eqb_spec y z); [|done].
    destruct (N.eqb_spec x z); [|lia]. apply IH.
Qed.

Global Instance str_le_antisymm : AntiSymm (=) str_le.
Proof.
  intros a. unfold str_le.
  induction a as [|x a IH]; intros [|y b]; simpl; try done.
  destruct (N.ltb_spec x y), (N.ltb_spec y x); try done; try lia.
  - destruct (N.eqb_spec y x); [lia|done].
  - destruct (N.eqb_spec x y); [lia|done].
  - destruct (N.eqb_spec x y); [|done]. destruct (N.eqb_spec y x); [|done].
    intros ??. f_equal; [done|]. by apply IH.
Qed.

Lemma sorted_perm (seen : gset str) : sorted seen ≡ₚ elements seen.
Proof. apply merge_sort_Permutation. Qed.

Lemma sorted_Sorted (seen : gset str) : Sorted str_le (sorted seen).
Proof. apply Sorted_merge_sort, _. Qed.

Lemma sorted_NoDup (seen : gset str) : NoDup (sorted seen).
Proof. rewrite sorted_perm. apply NoDup_elements. Qed.

Lemma sorted_length (seen : gset str) : length (sorted seen) = size seen.
Proof. by rewrite sorted_perm. Qed.

Lemma sorted_elem (seen : gset str) x : x ∈ sorted seen ↔ x ∈ seen.
Proof. by rewrite sorted_perm, elem_of_elements. Qed.

Lemma strict_of_NoDup (l : list str) :
  StronglySorted str_le l → NoDup l → StronglySorted str_lt l.
Proof.
  induction 1 as [|x l Hl IH Hx]; intros Hnd; [constructor|].
  apply NoDup_cons in Hnd as [Hin Hnd]. constructor; [by apply IH|].
  rewrite Forall_forall in Hx |- *. intros y Hy. split; [by apply Hx|].
  by intros ->.
Qed.

Lemma sorted_strict (seen : gset str) : StronglySorted str_lt (sorted seen).
Proof.
  apply strict_of_NoDup; [|apply sorted_NoDup].
  apply Sorted_StronglySorted; [apply _|apply sorted_Sorted].
Qed.

Lemma sorted_same_links (s1 s2 : gset str) :
  (∀ x, x ∈ sorted s1 ↔ x ∈ sorted s2) → sorted s1 = sorted s2.
Proof.
  intros H. apply (Sorted_unique str_le); [apply sorted_Sorted..|].
  apply NoDup_Permutation; [apply sorted_NoDup..|done].
Qed.

(** ** Rounds *)

Lemma rounds_calls_snoc k : rounds_calls (S k) = rounds_calls k ++ round_calls.
Proof.
  change (rounds_calls (S k)) with (round_calls ++ rounds_calls k).
  induction k as [|k IH]; [done|].
  change (rounds_calls (S k)) with (round_calls ++ rounds_calls k).
  by rewrite <-app_assoc, <-IH.
Qed.

Lemma round_nocap (max_count : option Z) w n :
  cap_reached max_count (discovered w (S n)) = false →
  for_hrefs max_count (page_hrefs w n) (discovered w n) 0
  = (discovered w (S n), size (discovered w (S n)) - size (discovered w n)).
Proof.
  intros Hc.
  destruct (for_hrefs max_count (page_hrefs w n) (discovered w n) 0)
    as [s' new'] eqn:Hf.
  destruct (for_hrefs_spec _ _ _ _ _ _ Hf) as (H1 & H2 & H3 & H4 & _).
  assert (cap_reached max_count s' = false) as Hc'.
  { destruct (cap_reached max_count s') eqn:E; [|done].
    by rewrite (cap_reached_mono _ _ (discovered w (S n)) H2 E) in Hc. }
  rewrite (H4 Hc') in *. simpl. f_equal. lia.
Qed.

Lemma new_zero_idle w n :
  (size (discovered w (S n)) - size (discovered w n) =? 0)
  = bool_decide (idle_round w n).
Proof.
  assert (discovered w n ⊆ discovered w (S n)) as Hsub
    by (apply discovered_mono; lia).
  pose proof (subseteq_size _ _ Hsub) as Hle.
  destruct (bool_decide_reflect (idle_round w n)) as [Hi|Hi].
  - unfold idle_round in Hi. rewrite Hi. apply Nat.eqb_eq. lia.
  - apply Nat.eqb_neq. intros Hz. apply Hi. unfold idle_round.
    symmetry. apply set_subseteq_size_eq; [done|lia].
Qed.

Lemma idle_streak_S w n :
  idle_streak w (S n)
  = if bool_decide (idle_round w n) then idle_streak w n + 1 else 0.
Proof.
  simpl. destruct (decide (idle_round w n)) as [Hi|Hi].
  - rewrite bool_decide_eq_true_2 by done. lia.
  - by rewrite bool_decide_eq_false_2.
Qed.

(** Rounds that neither reach the cap nor complete fifteen idle rounds go
    on: after [k] of them the loop is at round [k] with every link of the
    batches so far. *)
Lemma while_true_reach (max_count : option Z) w k :
  (∀ i, fails w i = false) →
  cap_reached max_count (discovered w k) = false →
  (∀ i, i ≤ k → idle_streak w i < idle_limit) →
  ∀ fuel tr,
    run (while_true (k + fuel) max_count 0 ∅ 0) w tr
    = run (while_true fuel max_count k (discovered w k) (idle_streak w k)) w
        (tr ++ rounds_calls k).
Proof.
  intros Hq. induction k as [|k IH]; intros Hc Hs fuel tr.
  - simpl. by rewrite app_nil_r.
  - assert (cap_reached max_count (discovered w k) = false) as Hck.
    { destruct (cap_reached max_count (discovered w k)) eqn:E; [|done].
      assert (discovered w k ⊆ discovered w (S k)) as Hsub
        by (apply discovered_mono; lia).
      by rewrite (cap_reached_mono _ _ _ Hsub E) in Hc. }
    replace (S k + fuel) with (k + S fuel) by lia.
    rewrite IH by (done || intros; apply Hs; lia).
    rewrite while_true_step_quiet by done.
    rewrite round_nocap by done. rewrite Hc, new_zero_idle.
    rewrite <-idle_streak_S. cbv zeta.
    destruct (Nat.leb_spec idle_limit (idle_streak w (S k))) as [Hl|Hl].
    { specialize (Hs (S k)). lia. }
    by rewrite rounds_calls_snoc, app_assoc.
Qed.

(** The round that completes fifteen idle rounds ends the loop. *)
Lemma while_true_idle_stop (max_count : option Z) w k fuel tr :
  (∀ i, fails w i = false) →
  cap_reached max_count (discovered w (S k)) = false →
  idle_limit ≤ idle_streak w (S k) →
  run (while_true (S fuel) max_count k (discovered w k) (idle_streak w k)) w tr
  = (tr ++ [Eval_on_selector_all], Return (discovered w (S k))).
Proof.
  intros Hq Hc Hs.
  rewrite while_true_step_quiet by done.
  rewrite round_nocap by done. rewrite Hc, new_zero_idle.
  rewrite <-idle_streak_S. cbv zeta.
  destruct (Nat.leb_spec idle_limit (idle_streak w (S k))); [done|lia].
Qed.

Lemma for_hrefs_cons_new (max_count : option Z) (h : str) (rest : list str)
    (seen : gset str) (new : nat) :
  is_reel h = true → canonical h ∉ seen →
  for_hrefs max_count (h :: rest) seen new
  = if cap_reached max_count (seen ∪ {[canonical h]})
    then (seen ∪ {[canonical h]}, new + 1)
    else for_hrefs max_count rest (seen ∪ {[canonical h]}) (new + 1).
Proof.
  intros Hr Hin. simpl. fold (is_reel h). rewrite Hr. simpl.
  assert ((if negb (endswith h (u "/")) then h ++ u "/" else h)
          = canonical h) as ->.
  { unfold canonical. by destruct (endswith h (u "/")). }
  by rewrite bool_decide_eq_false_2.
Qed.

(** The round in which the cap is reached ends the loop at the link that
    reaches it; the links after it in the batch play no part. *)
Lemma while_true_cap_stop (max_count : option Z) (w : world) (k : nat)
    (pre : list str) (h : str) (rest : list str) (fuel idle : nat)
    (tr : list call) :
  (∀ i, fails w i = false) →
  page_hrefs w k = pre ++ h :: rest →
  is_reel h = true →
  canonical h ∉ discovered w k ∪ list_to_set (reel_links pre) →
  cap_reached max_count (discovered w k ∪ list_to_set (reel_links pre))
  = false →
  cap_reached max_count
    (discovered w k ∪ list_to_set (reel_links pre) ∪ {[canonical h]}) = true →
  run (while_true (S fuel) max_count k (discovered w k) idle) w tr
  = (tr ++ [Eval_on_selector_all],
     Return (discovered w k ∪ list_to_set (reel_links pre)
               ∪ {[canonical h]})).
Proof.
  intros Hq Hb Hr Hin Hc0 Hc1.
  rewrite while_true_step_quiet by done. rewrite Hb.
  destruct (for_hrefs max_count pre (discovered w k) 0) as [s1 n1] eqn:Hf.
  destruct (for_hrefs_spec _ _ _ _ _ _ Hf) as (H1 & H2 & H3 & H4 & _).
  assert (cap_reached max_count s1 = false) as Hc'.
  { destruct (cap_reached max_count s1) eqn:E; [|done].
    by rewrite (cap_reached_mono _ _ _ H2 E) in Hc0. }
  rewrite (for_hrefs_app _ _ _ _ _ _ _ Hf Hc').
  rewrite (H4 Hc') in *.
  rewrite for_hrefs_cons_new by done. by rewrite !Hc1.
Qed.

(** ** Runs that return *)

Lemma inv_bind {A B} (m : M A) (k : A → M B) w tr tr' b :
  run (m ≫= k) w tr = (tr', Return b) →
  ∃ tr1 a, run m w tr = (tr1, Return a) ∧ run (k a) w tr1 = (tr', Return b).
Proof.
  rewrite run_bind. destruct (run m w tr) as [tr1 [a|e|]]; [|done..].
  intros H. by exists tr1, a.
Qed.

Lemma inv_engine c w tr tr' x :
  run (engine c) w tr = (tr', Return x) → tr' = tr ++ [c].
Proof. rewrite run_engine. by intros [= <- _]. Qed.

Lemma inv_install_cookies chd w tr tr' x :
  run (install_cookies chd) w tr = (tr', Return x) →
  tr' = tr ++ cookie_calls chd.
Proof. rewrite run_install_cookies. by intros [= <- _]. Qed.

Lemma inv_with {A} (body : M A) w tr tr' a :
  run (with_sync_playwright body) w tr = (tr', Return a) →
  ∃ tr2, run body w (tr ++ [Sync_playwright_enter]) = (tr2, Return a)
         ∧ tr' = tr2 ++ [Sync_playwright_exit].
Proof.
  unfold with_sync_playwright. cbn [run]. rewrite run_engine.
  destruct (fails w (length tr)); [done|].
  destruct (run body w _) as [tr2 [a'|e|]]; [| |done].
  - rewrite run_engine. destruct (fails w _); [done|].
    intros [= <- <-]. by exists tr2.
  - rewrite run_engine. by destruct (fails w _).
Qed.

Lemma collect_returns fuel username max_count chd w tr out :
  run (_playwright_collect_reels fuel username max_count chd) w []
  = (tr, Return out) →
  ∃ tr1 seen,
    run (while_true fuel max_count 0 ∅ 0) w (setup_calls username chd)
    = (tr1, Return seen)
    ∧ tr = tr1 ++ closing_calls ∧ out = sorted seen.
Proof.
  unfold _playwright_collect_reels. intros H.
  apply inv_bind in H as (tr0 & seen & H & Hret).
  injection Hret as <- <-.
  apply inv_with in H as (tr2 & H & ->).
  apply inv_bind in H as (t1 & [] & ->%inv_engine & H).
  apply inv_bind in H as (t2 & [] & ->%inv_engine & H).
  apply inv_bind in H as (t3 & [] & ->%inv_install_cookies & H).
  apply inv_bind in H as (t4 & [] & ->%inv_engine & H).
  apply inv_bind in H as (t5 & [] & ->%inv_engine & H).
  apply inv_bind in H as (t6 & [] & ->%inv_engine & H).
  apply inv_bind in H as (t7 & seen' & Hw & H).
  apply inv_bind in H as (t8 & [] & ->%inv_engine & H).
  apply inv_bind in H as (t9 & [] & ->%inv_engine & H).
  injection H as <- <-.
  exists t7, seen'. split_and!; [|by rewrite <-!app_assoc|done].
  rewrite <-Hw. f_equal. unfold setup_calls. by rewrite <-!app_assoc.
Qed.

Lemma collect_quiet fuel username max_count chd w tr1 seen :
  (∀ i, fails w i = false) →
  run (while_true fuel max_count 0 ∅ 0) w (setup_calls username chd)
  = (tr1, Return seen) →
  run (_playwright_collect_reels fuel username max_count chd) w []
  = (tr1 ++ closing_calls, Return (sorted seen)).
Proof.
  intros Hq Hw. unfold _playwright_collect_reels.
  rewrite run_bind.
  erewrite run_with_quiet; [|done|].
  2:{ do 6 (rewrite run_bind;
            rewrite ?run_engine_quiet, ?run_install_cookies_quiet by done).
      rewrite run_bind.
      rewrite <-!app_assoc. cbn [app].
      unfold setup_calls in Hw. cbn [app] in Hw.
      rewrite Hw.
      do 2 (rewrite run_bind; rewrite run_engine_quiet by done).
      rewrite run_ret. reflexivity. }
  cbn. unfold closing_calls. by rewrite <-!app_assoc.
Qed.

(** Counting rounds and scrolls in the record of a collection. *)
Lemma rounds_rounds_calls k : rounds (rounds_calls k) = k.
Proof. induction k as [|k IH]; [done|]. unfold rounds in *. simpl. by rewrite IH. Qed.

Lemma scrolls_rounds_calls k : scrolls (rounds_calls k) = k.
Proof. induction k as [|k IH]; [done|]. unfold scrolls in *. simpl. by rewrite IH. Qed.

Lemma rounds_collection username chd k :
  rounds (collection_calls username chd k) = S k.
Proof.
  unfold collection_calls, rounds, setup_calls.
  rewrite !count_occ_app. fold (rounds (rounds_calls k)).
  rewrite rounds_rounds_calls. unfold cookie_calls.
  repeat case_match; simpl; lia.
Qed.

Lemma scrolls_collection username chd k :
  scrolls (collection_calls username chd k) = k.
Proof.
  unfold collection_calls, scrolls, setup_calls.
  rewrite !count_occ_app. fold (scrolls (rounds_calls k)).
  rewrite scrolls_rounds_calls. unfold cookie_calls.
  repeat case_match; simpl; lia.
Qed.

(** What the loop returns, and when: either the cap is reached, with as
    many links as the cap, or the last fifteen rounds were idle, with every
    link of the batches so far. *)
Lemma while_true_returns (max_count : option Z) w fuel :
  ∀ n idle tr tr' (S' : gset str),
  run (while_true fuel max_count n (discovered w n) idle) w tr
  = (tr', Return S') →
  cap_reached max_count (discovered w n) = false →
  idle ≤ n → (∀ j, n - idle ≤ j < n → idle_round w j) →
  ∃ k, n ≤ k
    ∧ tr' = tr ++ rounds_calls (k - n) ++ [Eval_on_selector_all]
    ∧ S' ⊆ discovered w (S k)
    ∧ ((cap_reached max_count S' = true
        ∧ ∀ m, max_count = Some m → Z.of_nat (size S') = m)
       ∨ (cap_reached max_count S' = false
          ∧ S' = discovered w (S k)
          ∧ 14 ≤ k ∧ ∀ j, k - 14 ≤ j ≤ k → idle_round w j)).
Proof.
  induction fuel as [|fuel IH]; intros n idle tr tr' S' Hrun Hc Hidle Hprev;
    [done|].
  apply while_true_step_returns in Hrun.
  destruct (for_hrefs max_count (page_hrefs w n) (discovered w n) 0)
    as [seen' new] eqn:Hf.
  destruct (for_hrefs_spec _ _ _ _ _ _ Hf) as (H1 & H2 & H3 & H4 & H5).
  assert (new = 0 → idle_round w n) as Hnew.
  { intros ->. unfold idle_round.
    destruct (cap_reached max_count seen') eqn:E.
    - assert (discovered w n = seen') as Heq
        by (apply set_subseteq_size_eq; [done|lia]).
      rewrite <-Heq in E. congruence.
    - change (discovered w (S n))
        with (discovered w n ∪ list_to_set (reel_links (page_hrefs w n))).
      rewrite <-(H4 eq_refl). symmetry.
      apply set_subseteq_size_eq; [done|lia]. }
  destruct Hrun as [(Hcap & -> & ->)|[(Hcap & Hlim & -> & ->)|(Hcap & Hlim & Hrun)]].
  - exists n. rewrite Nat.sub_diag. split_and!; [lia|done|done|].
    left. split; [done|]. by apply H5.
  - exists n. rewrite Nat.sub_diag.
    assert (seen' = discovered w (S n)) as Heq by apply (H4 Hcap).
    split_and!; [lia|done|by rewrite Heq|]. right.
    unfold idle_limit in Hlim.
    destruct (Nat.eqb_spec new 0) as [Hz|Hz]; [|lia].
    split_and!; [done|done|lia|].
    intros j Hj. destruct (decide (j = n)) as [->|]; [by apply Hnew|].
    apply Hprev. lia.
  - assert (seen' = discovered w (S n)) as Heq by apply (H4 Hcap).
    rewrite Heq in Hrun, Hcap.
    apply IH in Hrun as (k & Hk & -> & Hsub & Hend); [|done| |].
    + exists k. split_and!; [lia| |done|done].
      replace (k - n) with (S (k - S n)) by lia.
      simpl. by rewrite <-!app_assoc.
    + destruct (new =? 0); lia.
    + intros j Hj. destruct (Nat.eqb_spec new 0) as [Hz|Hz]; [|lia].
      destruct (decide (j = n)) as [->|]; [by apply Hnew|].
      apply Hprev. lia.
Qed.

(** What a returned collection looks like. *)
Lemma collect_returns_spec fuel username (max_count : option Z) chd w tr out :
  run (_playwright_collect_reels fuel username max_count chd) w []
  = (tr, Return out) →
  cap_reached max_count ∅ = false →
  ∃ k (S' : gset str),
    tr = collection_calls username chd k
    ∧ out = sorted S'
    ∧ S' ⊆ discovered w (S k)
    ∧ ((cap_reached max_count S' = true
        ∧ ∀ m, max_count = Some m → Z.of_nat (size S') = m)
       ∨ (cap_reached max_count S' = false
          ∧ S' = discovered w (S k)
          ∧ 14 ≤ k ∧ ∀ j, k - 14 ≤ j ≤ k → idle_round w j)).
Proof.
  intros (tr1 & seen & Hw & -> & ->)%collect_returns Hc.
  change (∅ : gset str) with (discovered w 0) in Hw, Hc.
  apply while_true_returns in Hw as (k & _ & -> & Hsub & Hend);
    [|done|lia|intros; lia].
  exists k, seen. split_and!; [|done..].
  rewrite Nat.sub_0_r. unfold collection_calls. by rewrite <-!app_assoc.
Qed.

(** A collection in a world where no call fails, whose round [k] completes
    fifteen idle rounds. *)
Lemma collect_idle_stop fuel username (max_count : option Z) chd w k :
  (∀ i, fails w i = false) →
  cap_reached max_count (discovered w (S k)) = false →
  (∀ i, i ≤ k → idle_streak w i < idle_limit) →
  idle_limit ≤ idle_streak w (S k) →
  S k ≤ fuel →
  run (_playwright_collect_reels fuel username max_count chd) w []
  = (collection_calls username chd k, Return (sorted (discovered w (S k)))).
Proof.
  intros Hq Hc Hs Hlim Hfuel.
  assert (cap_reached max_count (discovered w k) = false) as Hck.
  { destruct (cap_reached max_count (discovered w k)) eqn:E; [|done].
    assert (discovered w k ⊆ discovered w (S k)) as Hsub
      by (apply discovered_mono; lia).
    by rewrite (cap_reached_mono _ _ _ Hsub E) in Hc. }
  replace fuel with (k + S (fuel - S k)) by lia.
  erewrite collect_quiet; [|done|].
  2:{ rewrite while_true_reach by done.
      by apply while_true_idle_stop. }
  unfold collection_calls. by rewrite <-!app_assoc.
Qed.

(** A collection in a world where no call fails, whose round [k] reaches
    the cap at the link [h] of its batch. *)
Lemma collect_cap_stop fuel username (max_count : option Z) chd (w : world)
    (k : nat) (pre : list str) (h : str) (rest : list str) :
  (∀ i, fails w i = false) →
  page_hrefs w k = pre ++ h :: rest →
  is_reel h = true →
  canonical h ∉ discovered w k ∪ list_to_set (reel_links pre) →
  cap_reached max_count (discovered w k ∪ list_to_set (reel_links pre))
  = false →
  cap_reached max_count
    (discovered w k ∪ list_to_set (reel_links pre) ∪ {[canonical h]}) = true →
  (∀ i, i ≤ k → idle_streak w i < idle_limit) →
  S k ≤ fuel →
  run (_playwright_collect_reels fuel username max_count chd) w []
  = (collection_calls username chd k,
     Return (sorted (discovered w k ∪ list_to_set (reel_links pre)
                       ∪ {[canonical h]}))).
Proof.
  intros Hq Hb Hr Hin Hc0 Hc1 Hs Hfuel.
  assert (cap_reached max_count (discovered w k) = false) as Hck.
  { destruct (cap_reached max_count (discovered w k)) eqn:E; [|done].
    assert (discovered w k
              ⊆ discovered w k ∪ list_to_set (reel_links pre)) as Hsub
      by set_solver.
    by rewrite (cap_reached_mono _ _ _ Hsub E) in Hc0. }
  replace fuel with (k + S (fuel - S k)) by lia.
  erewrite collect_quiet; [|done|].
  2:{ rewrite while_true_reach by done.
      by eapply while_true_cap_stop. }
  unfold collection_calls. by rewrite <-!app_assoc.
Qed.

(** ** Cap termination *)

Lemma cap_reached_five (s : gset str) :
  cap_reached (Some 5%Z) s = bool_decide (5 ≤ size s).
Proof.
  unfold cap_reached. simpl.
  destruct (Z.leb_spec 5 (Z.of_nat (size s)));
    [rewrite bool_decide_eq_true_2|rewrite bool_decide_eq_false_2]; (done || lia).
Qed.

(** C1. With a maximum of 5, in a world where no call fails: when the link
    [h] of the batch of round [k] is the fifth distinct canonical reel link
    harvested, and the loop has not met fifteen idle rounds before, the
    collection returns exactly these five links, sorted; the links that
    follow [h] in the batch play no part, the harvest of round [k] is the
    last call of the loop, and there have been [k] scrolls, one after each
    earlier round. *)
Theorem cap_termination (fuel : nat) (username : str) (chd : option str)
    (w : world) (k : nat) (pre : list str) (h : str) (rest : list str) :
  (∀ i, fails w i = false) →
  page_hrefs w k = pre ++ h :: rest →
  is_reel h = true →
  canonical h ∉ discovered w k ∪ list_to_set (reel_links pre) →
  size (discovered w k ∪ list_to_set (reel_links pre)) = 4 →
  (∀ i, i ≤ k → idle_streak w i < idle_limit) →
  S k ≤ fuel →
  let out := sorted (discovered w k ∪ list_to_set (reel_links pre)
                       ∪ {[canonical h]}) in
  run (_playwright_collect_reels fuel username (Some 5%Z) chd) w []
  = (setup_calls username chd ++ rounds_calls k
       ++ [Eval_on_selector_all] ++ closing_calls, Return out)
  ∧ length out = 5
  ∧ rounds (collection_calls username chd k) = S k
  ∧ scrolls (collection_calls username chd k) = k.
Proof.
  intros Hq Hb Hr Hin Hsize Hs Hfuel out.
  split_and!.
  - apply (collect_cap_stop _ _ _ _ _ _ _ _ rest); try done.
    + rewrite cap_reached_five, bool_decide_eq_false_2; [done|lia].
    + rewrite cap_reached_five, bool_decide_eq_true_2; [done|].
      rewrite size_add by done. lia.
  - unfold out. rewrite sorted_length, size_add by done. lia.
  - apply rounds_collection.
  - apply scrolls_collection.
Qed.

(** Six links are on the page at the first evaluation: the collection stops
    at the fifth. *)
Lemma cap_termination_witness :
  let out := sorted (discovered (world_links 6) 0
                       ∪ list_to_set (reel_links (nth_link <$> seq 0 4))
                       ∪ {[canonical (nth_link 4)]}) in
  run (_playwright_collect_reels 1 (u "bob") (Some 5%Z) None)
    (world_links 6) []
  = (setup_calls (u "bob") None ++ rounds_calls 0
       ++ [Eval_on_selector_all] ++ closing_calls, Return out)
  ∧ length out = 5
  ∧ rounds (collection_calls (u "bob") None 0) = 1
  ∧ scrolls (collection_calls (u "bob") None 0) = 0.
Proof.
  apply (cap_termination 1 (u "bob") None (world_links 6) 0
           (nth_link <$> seq 0 4) (nth_link 4) [nth_link 5]).
  - intros i. reflexivity.
  - reflexivity.
  - vm_compute. reflexivity.
  - apply (bool_decide_unpack _). vm_compute. exact I.
  - vm_compute. reflexivity.
  - intros i Hi. assert (i = 0) as -> by lia. unfold idle_limit. simpl. lia.
  - lia.
Defined.

(** ** Idle termination *)

Lemma idle_streak_ge w a b :
  a ≤ b → (∀ j, a ≤ j < b → idle_round w j) → b - a ≤ idle_streak w b.
Proof.
  induction b as [|b IH]; intros Hab Hidle; [lia|].
  destruct (decide (a = S b)) as [->|Hne]; [lia|].
  simpl. rewrite decide_True by (apply Hidle; lia).
  assert (b - a ≤ idle_streak w b) by (apply IH; [lia|intros; apply Hidle; lia]).
  lia.
Qed.

Lemma idle_rounds_same w a b :
  a ≤ b → (∀ j, a ≤ j < b → idle_round w j) → discovered w b = discovered w a.
Proof.
  induction b as [|b IH]; intros Hab Hidle.
  - by replace a with 0 by lia.
  - destruct (decide (a = S b)) as [->|Hne]; [done|].
    rewrite (Hidle b) by lia. apply IH; [lia|intros; apply Hidle; lia].
Qed.

(** C2. In a world where no call fails: when the rounds [k0] to [k0 + 14]
    each add no link that was not seen before, the cap was not reached
    before them and the loop had not met fifteen idle rounds earlier, the
    collection returns, after the harvest of round [k0 + 14], the links
    collected before round [k0], fewer than the maximum when one is in
    force. And a round that adds a link without reaching the cap goes on
    with the idle counter at zero, whatever the counter was. *)
Theorem idle_termination (fuel : nat) (username : str)
    (max_count : option Z) (chd : option str) (w : world) (k0 : nat) :
  (∀ i, fails w i = false) →
  cap_reached max_count (discovered w k0) = false →
  (∀ j, k0 ≤ j < k0 + idle_limit → idle_round w j) →
  (∀ i, i < k0 + idle_limit → idle_streak w i < idle_limit) →
  k0 + idle_limit ≤ fuel →
  run (_playwright_collect_reels fuel username max_count chd) w []
  = (collection_calls username chd (k0 + 14),
     Return (sorted (discovered w k0)))
  ∧ rounds (collection_calls username chd (k0 + 14)) = k0 + 15
  ∧ scrolls (collection_calls username chd (k0 + 14)) = k0 + 14
  ∧ (∀ m, max_count = Some m → m ≠ 0%Z →
       (Z.of_nat (length (sorted (discovered w k0))) < m)%Z)
  ∧ (∀ f n (seen : gset str) idle tr seen' new,
       for_hrefs max_count (page_hrefs w n) seen 0 = (seen', new) →
       new ≠ 0 → cap_reached max_count seen' = false →
       run (while_true (S f) max_count n seen idle) w tr
       = run (while_true f max_count (S n) seen' 0) w (tr ++ round_calls)).
Proof.
  unfold idle_limit. intros Hq Hc Hidle Hs Hfuel.
  assert (discovered w (S (k0 + 14)) = discovered w k0) as Hsame
    by (apply idle_rounds_same; [lia|intros; apply Hidle; lia]).
  split_and!.
  - rewrite <-Hsame. apply collect_idle_stop; unfold idle_limit.
    + done.
    + by rewrite Hsame.
    + intros i Hi. apply Hs. lia.
    + pose proof (idle_streak_ge w k0 (S (k0 + 14))) as H.
      assert (S (k0 + 14) - k0 = 15) as Hd by lia. rewrite Hd in H.
      apply H; [lia|]. intros j Hj. apply Hidle. lia.
    + lia.
  - rewrite rounds_collection. lia.
  - apply scrolls_collection.
  - intros m -> Hm. rewrite sorted_length. unfold cap_reached in Hc.
    destruct (Z.eqb_spec m 0); [done|]. simpl in Hc.
    by apply Z.leb_gt in Hc.
  - intros f n seen idle tr seen' new Hf Hnew Hcap.
    rewrite while_true_step_quiet by done. rewrite Hf, Hcap.
    destruct (Nat.eqb_spec new 0); [done|]. reflexivity.
Qed.

(** A page without links, a maximum of 5: the collection returns nothing
    after fifteen rounds. *)
Lemma idle_termination_witness :
  run (_playwright_collect_reels 15 (u "bob") (Some 5%Z) None) world_none []
  = (collection_calls (u "bob") None 14, Return (sorted ∅)).
Proof.
  apply (idle_termination 15 (u "bob") (Some 5%Z) None world_none 0).
  - intros i. reflexivity.
  - reflexivity.
  - intros j Hj. unfold idle_limit in Hj.
    do 15 (destruct j as [|j]; [vm_compute; reflexivity|]). lia.
  - intros i Hi. unfold idle_limit in *.
    do 15 (destruct i as [|i]; [vm_compute; lia|]). lia.
  - unfold idle_limit. lia.
Defined.

(** ** More fuel changes nothing *)

Lemma while_true_fuel_mono (max_count : option Z) (w : world) (fuel : nat) :
  ∀ fuel' n (seen : gset str) idle tr tr' (S' : gset str),
  fuel ≤ fuel' →
  run (while_true fuel max_count n seen idle) w tr = (tr', Return S') →
  run (while_true fuel' max_count n seen idle) w tr = (tr', Return S').
Proof.
  induction fuel as [|fuel IH]; intros fuel' n seen idle tr tr' S' Hle;
    [done|].
  destruct fuel' as [|fuel']; [lia|].
  rewrite !while_true_S.
  cbn -[while_true for_hrefs Nat.leb idle_limit].
  destruct (fails w (length tr)); [done|].
  cbn -[while_true for_hrefs Nat.leb idle_limit].
  destruct (for_hrefs max_count (page_hrefs w n) seen 0) as [seen' new].
  destruct (cap_reached max_count seen'); [done|].
  destruct (idle_limit <=? _); [done|].
  cbn -[while_true for_hrefs Nat.leb idle_limit].
  destruct (fails w _); [done|].
  cbn -[while_true for_hrefs Nat.leb idle_limit].
  destruct (fails w _); [done|].
  apply IH. lia.
Qed.

Lemma bind_cong_l {A B} (m1 m2 : M A) (k : A → M B) w tr tr' b :
  (∀ t a, run m1 w tr = (t, Return a) → run m2 w tr = (t, Return a)) →
  run (m1 ≫= k) w tr = (tr', Return b) →
  run (m2 ≫= k) w tr = (tr', Return b).
Proof.
  intros H. rewrite !run_bind.
  destruct (run m1 w tr) as [t [a| |]]; [|done..].
  by rewrite (H t a eq_refl).
Qed.

Lemma bind_cong_r {A B} (m : M A) (k1 k2 : A → M B) w tr tr' b :
  (∀ a t, run (k1 a) w t = (tr', Return b) →
          run (k2 a) w t = (tr', Return b)) →
  run (m ≫= k1) w tr = (tr', Return b) →
  run (m ≫= k2) w tr = (tr', Return b).
Proof.
  intros H. rewrite !run_bind.
  destruct (run m w tr) as [t [a| |]]; [|done..].
  apply H.
Qed.

Lemma with_cong {A} (b1 b2 : M A) w tr tr' a :
  (∀ t t', run b1 w t = (t', Return a) → run b2 w t = (t', Return a)) →
  run (with_sync_playwright b1) w tr = (tr', Return a) →
  run (with_sync_playwright b2) w tr = (tr', Return a).
Proof.
  intros H. unfold with_sync_playwright. cbn [run]. rewrite run_engine.
  destruct (fails w (length tr)); [done|].
  destruct (run b1 w _) as [t2 [a'|e|]] eqn:Hb; [| |done].
  - rewrite run_engine. destruct (fails w (length t2)) eqn:Hf; [done|].
    intros [= <- <-]. by rewrite (H _ _ Hb), run_engine, Hf.
  - rewrite run_engine. by destruct (fails w _).
Qed.

Lemma collect_fuel_mono fuel fuel' username (max_count : option Z) chd w
    tr out :
  fuel ≤ fuel' →
  run (_playwright_collect_reels fuel username max_count chd) w []
  = (tr, Return out) →
  run (_playwright_collect_reels fuel' username max_count chd) w []
  = (tr, Return out).
Proof.
  intros Hle. unfold _playwright_collect_reels.
  apply bind_cong_l. intros t seen. apply with_cong. clear t. intros t t'.
  do 6 (apply bind_cong_r; intros [] ?).
  apply bind_cong_l. intros ? ?. by apply while_true_fuel_mono.
Qed.

(** ** The output of a collection *)

(** C3, as stated, fails for a configured maximum of 0: with one link on the
    page the output holds that link, and is not capped at 0. *)
Lemma capped_at_maximum_counterexample :
  ∃ tr out,
    run (_playwright_collect_reels 16 (u "bob") (Some 0%Z) None)
      (world_links 1) [] = (tr, Return out)
    ∧ size (discovered (world_links 1) (rounds tr)) = 1
    ∧ length out = 1
    ∧ length out
      ≠ Nat.min (size (discovered (world_links 1) (rounds tr))) (Z.to_nat 0).
Proof.
  eexists _, _. split; [vm_compute; reflexivity|].
  split_and!; [by vm_compute..|].
  vm_compute. lia.
Qed.

(** C3, amended. Whenever the collector returns, with a maximum that is
    absent, zero or positive, its output is sorted in strictly ascending
    order, so it holds no duplicate; its length is the number of distinct
    canonical reel links of the batches harvested, capped at the maximum
    when a positive one is set, a maximum of 0 counting as none; more fuel
    gives the same record of calls and the same output; and any other run
    that collects the same links, in whatever order it discovers them,
    returns the same list. *)
Theorem collector_output (fuel : nat) (username : str)
    (max_count : option Z) (chd : option str) (w : world) (tr : list call)
    (out : list str) :
  run (_playwright_collect_reels fuel username max_count chd) w []
  = (tr, Return out) →
  (∀ m, max_count = Some m → (0 ≤ m)%Z) →
  StronglySorted str_lt out
  ∧ NoDup out
  ∧ length out = capped max_count (size (discovered w (rounds tr)))
  ∧ (∀ fuel', fuel ≤ fuel' →
       run (_playwright_collect_reels fuel' username max_count chd) w []
       = (tr, Return out))
  ∧ (∀ fuel' username' max_count' chd' w' tr' out',
       run (_playwright_collect_reels fuel' username' max_count' chd') w' []
       = (tr', Return out') →
       (∀ x, x ∈ out ↔ x ∈ out') → out = out').
Proof.
  intros Hrun Hmax.
  assert (cap_reached max_count ∅ = false) as Hc0.
  { unfold cap_reached. destruct max_count as [m|]; [|done].
    specialize (Hmax m eq_refl). rewrite size_empty.
    destruct (Z.eqb_spec m 0); [done|]. simpl. apply Z.leb_gt. lia. }
  pose proof Hrun as Hrun0.
  apply collect_returns_spec in Hrun as (k & S' & -> & -> & Hsub & Hend);
    [|done].
  split_and!.
  - apply sorted_strict.
  - apply sorted_NoDup.
  - rewrite sorted_length, rounds_collection. unfold capped.
    pose proof (subseteq_size _ _ Hsub) as Hle.
    destruct Hend as [[Hcap Hm]|(Hcap & -> & _)].
    + destruct max_count as [m|]; [|done]. specialize (Hm m eq_refl).
      unfold cap_reached in Hcap.
      destruct (Z.eqb_spec m 0); [done|]. lia.
    + destruct max_count as [m|]; [|done].
      unfold cap_reached in Hcap.
      destruct (Z.eqb_spec m 0); [done|]. cbn [negb andb] in Hcap.
      apply Z.leb_gt in Hcap. lia.
  - intros fuel' Hle. by apply (collect_fuel_mono fuel).
  - intros fuel' username' max_count' chd' w' tr' out' Hrun' Hsame.
    apply collect_returns in Hrun' as (tr1 & seen' & _ & _ & ->).
    by apply sorted_same_links.
Qed.

(** Two links on the page and a maximum of 2. *)
Lemma collector_output_witness :
  StronglySorted str_lt (sorted (discovered (world_links 2) 1))
  ∧ NoDup (sorted (discovered (world_links 2) 1))
  ∧ length (sorted (discovered (world_links 2) 1))
    = capped (Some 2%Z)
        (size (discovered (world_links 2)
                 (rounds (collection_calls (u "bob") None 0))))
  ∧ (∀ fuel', 1 ≤ fuel' →
       run (_playwright_collect_reels fuel' (u "bob") (Some 2%Z) None)
         (world_links 2) []
       = (collection_calls (u "bob") None 0,
          Return (sorted (discovered (world_links 2) 1))))
  ∧ (∀ fuel' username' max_count' chd' w' tr' out',
       run (_playwright_collect_reels fuel' username' max_count' chd') w' []
       = (tr', Return out') →
       (∀ x, x ∈ sorted (discovered (world_links 2) 1) ↔ x ∈ out') →
       sorted (discovered (world_links 2) 1) = out').
Proof.
  apply (collector_output 1 (u "bob") (Some 2%Z) None (world_links 2)).
  - vm_compute. reflexivity.
  - intros m [= <-]. lia.
Defined.

(** ** A maximum of zero *)

Lemma for_hrefs_zero (hrefs : list str) (seen : gset str) (new : nat) :
  for_hrefs (Some 0%Z) hrefs seen new = for_hrefs None hrefs seen new.
Proof.
  revert seen new. induction hrefs as [|h rest IH]; intros seen new; [done|].
  simpl. by rewrite !IH.
Qed.

Lemma while_true_zero (fuel n : nat) (seen : gset str) (idle : nat)
    (w : world) (tr : list call) :
  run (while_true fuel (Some 0%Z) n seen idle) w tr
  = run (while_true fuel None n seen idle) w tr.
Proof.
  revert n seen idle tr. induction fuel as [|fuel IH]; intros n seen idle tr;
    [done|].
  rewrite !while_true_S.
  cbn -[while_true for_hrefs Nat.leb idle_limit].
  destruct (fails w (length tr)); [done|].
  cbn -[while_true for_hrefs Nat.leb idle_limit].
  rewrite for_hrefs_zero.
  destruct (for_hrefs None (page_hrefs w n) seen 0) as [seen' new].
  cbn -[while_true for_hrefs Nat.leb idle_limit].
  destruct (idle_limit <=? _); [done|].
  cbn -[while_true for_hrefs Nat.leb idle_limit].
  destruct (fails w _); [done|].
  cbn -[while_true for_hrefs Nat.leb idle_limit].
  destruct (fails w _); [done|].
  apply IH.
Qed.

Lemma run_bind_ext {A B} (m1 m2 : M A) (k : A → M B) w tr :
  (∀ tr, run m1 w tr = run m2 w tr) →
  run (m1 ≫= k) w tr = run (m2 ≫= k) w tr.
Proof. intros H. by rewrite !run_bind, H. Qed.

Lemma run_bind_ext_r {A B} (m : M A) (k1 k2 : A → M B) w tr :
  (∀ a tr, run (k1 a) w tr = run (k2 a) w tr) →
  run (m ≫= k1) w tr = run (m ≫= k2) w tr.
Proof.
  intros H. rewrite !run_bind. destruct (run m w tr) as [tr1 [a| |]]; [|done..].
  apply H.
Qed.

Lemma run_with_ext {A} (b1 b2 : M A) w tr :
  (∀ tr, run b1 w tr = run b2 w tr) →
  run (with_sync_playwright b1) w tr = run (with_sync_playwright b2) w tr.
Proof.
  intros H. unfold with_sync_playwright. cbn [run]. rewrite run_engine.
  destruct (fails w (length tr)); [done|]. by rewrite H.
Qed.

Lemma collect_zero fuel username chd w tr :
  run (_playwright_collect_reels fuel username (Some 0%Z) chd) w tr
  = run (_playwright_collect_reels fuel username None chd) w tr.
Proof.
  unfold _playwright_collect_reels.
  apply run_bind_ext. intros tr0. apply run_with_ext. intros tr1.
  do 6 (apply run_bind_ext_r; intros [] ?).
  apply run_bind_ext. intros ?. apply while_true_zero.
Qed.

(** The links of [world_links]. *)
Lemma contains_app_r (p a s : str) :
  contains p s = true → contains p (a ++ s) = true.
Proof.
  intros H. induction a as [|x a IH]; [done|].
  simpl. rewrite IH. apply orb_true_r.
Qed.

Lemma is_reel_nth_link i : is_reel (nth_link i) = true.
Proof.
  unfold is_reel, nth_link.
  change (u "https://www.instagram.com/reel/")
    with (u "https://www.instagram.com" ++ u "/reel/").
  rewrite <-app_assoc. apply contains_app_r.
  by destruct (replicate i (ch "a") ++ u "/").
Qed.

Lemma startswith_app (p b : str) : startswith (p ++ b) p = true.
Proof.
  induction p as [|x p IH]; simpl; [by destruct b|].
  by rewrite N.eqb_refl.
Qed.

Lemma endswith_app (a p : str) : endswith (a ++ p) p = true.
Proof. unfold endswith. rewrite rev_app_distr. apply startswith_app. Qed.

Lemma canonical_nth_link i : canonical (nth_link i) = nth_link i.
Proof.
  assert (endswith (nth_link i) (u "/") = true) as H.
  { unfold nth_link. rewrite app_assoc. apply endswith_app. }
  unfold canonical. by rewrite H.
Qed.

Global Instance nth_link_inj : Inj (=) (=) nth_link.
Proof.
  intros i j H. apply (f_equal length) in H. unfold nth_link in H.
  rewrite !length_app, !length_replicate in H. lia.
Qed.

Lemma reel_links_nth (l : list nat) :
  reel_links (nth_link <$> l) = nth_link <$> l.
Proof.
  induction l as [|i l IH]; [done|].
  rewrite fmap_cons.
  change (reel_links (nth_link i :: (nth_link <$> l)))
    with (if is_reel (nth_link i)
          then canonical (nth_link i) :: reel_links (nth_link <$> l)
          else reel_links (nth_link <$> l)).
  by rewrite is_reel_nth_link, canonical_nth_link, IH.
Qed.

Lemma discovered_world_links n j :
  discovered (world_links n) (S j) = list_to_set (nth_link <$> seq 0 n).
Proof.
  induction j as [|j IH].
  - simpl. rewrite reel_links_nth. by rewrite union_empty_l_L.
  - change (discovered (world_links n) (S (S j)))
      with (discovered (world_links n) (S j) ∪ list_to_set (reel_links [])).
    rewrite IH. simpl. by rewrite union_empty_r_L.
Qed.

Lemma size_world_links n j :
  size (discovered (world_links n) (S j)) = n.
Proof.
  rewrite discovered_world_links, size_list_to_set.
  - by rewrite length_fmap, length_seq.
  - apply (NoDup_fmap_2 _), NoDup_seq.
Qed.

Lemma idle_streak_world_links n j :
  0 < n → idle_streak (world_links n) (S j) = j.
Proof.
  intros Hn. induction j as [|j IH].
  - simpl. rewrite decide_False; [done|].
    unfold idle_round. intros H.
    pose proof (size_world_links n 0) as Hs. rewrite H in Hs.
    change (discovered (world_links n) 0) with (∅ : gset str) in Hs.
    rewrite size_empty in Hs. lia.
  - change (idle_streak (world_links n) (S (S j)))
      with (if decide (idle_round (world_links n) (S j))
            then S (idle_streak (world_links n) (S j)) else 0).
    rewrite decide_True; [by rewrite IH|].
    unfold idle_round. by rewrite !discovered_world_links.
Qed.

Lemma collect_world_links n :
  0 < n →
  run (_playwright_collect_reels 16 (u "bob") (Some 0%Z) None)
    (world_links n) []
  = (collection_calls (u "bob") None 15,
     Return (sorted (discovered (world_links n) 16))).
Proof.
  intros Hn. apply collect_idle_stop.
  - done.
  - done.
  - intros i Hi. destruct i as [|i]; [unfold idle_limit; simpl; lia|].
    rewrite idle_streak_world_links by done. unfold idle_limit. lia.
  - rewrite idle_streak_world_links by done. done.
  - lia.
Qed.

(** C10. A maximum of 0 is no maximum: the collector then does, call for
    call, what it does without a maximum. When it returns it has made at
    least fifteen harvest rounds, the last fifteen of them idle, and it
    returns every link of the batches harvested; and for every number there
    is a page from which it returns more links than that. *)
Theorem zero_maximum_is_no_maximum :
  (∀ fuel username chd w tr,
     run (_playwright_collect_reels fuel username (Some 0%Z) chd) w tr
     = run (_playwright_collect_reels fuel username None chd) w tr)
  ∧ (∀ fuel username chd w tr out,
       run (_playwright_collect_reels fuel username (Some 0%Z) chd) w []
       = (tr, Return out) →
       15 ≤ rounds tr
       ∧ scrolls tr + 1 = rounds tr
       ∧ (∀ j, rounds tr - 15 ≤ j < rounds tr → idle_round w j)
       ∧ out = sorted (discovered w (rounds tr)))
  ∧ (∀ n, ∃ w tr out,
       run (_playwright_collect_reels 16 (u "bob") (Some 0%Z) None) w []
       = (tr, Return out)
       ∧ n < length out).
Proof.
  split_and!.
  - apply collect_zero.
  - intros fuel username chd w tr out Hrun.
    apply collect_returns_spec in Hrun as (k & S' & -> & -> & Hsub & Hend);
      [|done].
    destruct Hend as [[Hcap _]|(_ & -> & Hk & Hidle)]; [done|].
    rewrite rounds_collection, scrolls_collection.
    split_and!; [lia|lia| |done].
    intros j Hj. apply Hidle. lia.
  - intros n. exists (world_links (S n)). eexists _, _.
    split; [apply collect_world_links; lia|].
    rewrite sorted_length, size_world_links. lia.
Qed.

(** With a maximum of 0 and three links on the page, the collection makes
    sixteen harvest rounds and returns the three links. *)
Lemma zero_maximum_is_no_maximum_witness :
  15 ≤ rounds (collection_calls (u "bob") None 15)
  ∧ scrolls (collection_calls (u "bob") None 15) + 1
    = rounds (collection_calls (u "bob") None 15)
  ∧ (∀ j, rounds (collection_calls (u "bob") None 15) - 15 ≤ j
          < rounds (collection_calls (u "bob") None 15) →
          idle_round (world_links 3) j)
  ∧ sorted (discovered (world_links 3) 16)
    = sorted (discovered (world_links 3)
                (rounds (collection_calls (u "bob") None 15))).
Proof.
  apply (proj1 (proj2 zero_maximum_is_no_maximum) 16 (u "bob") None
           (world_links 3)).
  vm_compute. reflexivity.
Defined.

(** * Further properties *)

(** ** Trimming *)

Lemma lstrip_nospace_head (s : str) : nospace_head (lstrip s).
Proof.
  induction s as [|c s IH]; simpl; [done|].
  destruct (isspace c) eqn:Hc; [done|]. by simpl.
Qed.

Lemma lstrip_snoc (a : str) (c : N) :
  isspace c = false → lstrip (a ++ [c]) = lstrip a ++ [c].
Proof.
  intros Hc. induction a as [|x a IH]; simpl; [by rewrite Hc|].
  by destruct (isspace x).
Qed.

Lemma rstrip_cons (c : N) (t : str) :
  isspace c = false → rstrip (c :: t) = c :: rstrip t.
Proof.
  intros Hc. unfold rstrip. simpl.
  by rewrite lstrip_snoc, rev_app_distr.
Qed.

Lemma strip_trimmed (s : str) : trimmed (strip s).
Proof.
  unfold trimmed, strip. split.
  - pose proof (lstrip_nospace_head s) as H.
    destruct (lstrip s) as [|c t]; [done|]. simpl in H.
    by rewrite rstrip_cons.
  - unfold rstrip. rewrite rev_involutive. apply lstrip_nospace_head.
Qed.

Lemma lstrip_all_spaces (w : str) :
  Forall (λ c, isspace c = true) w → lstrip w = [].
Proof. induction 1 as [|c w Hc _ IH]; simpl; [done|]. by rewrite Hc. Qed.

Lemma strip_of_trimmed (ws1 s ws2 : str) :
  Forall (λ c, isspace c = true) ws1 →
  Forall (λ c, isspace c = true) ws2 →
  trimmed s →
  strip (ws1 ++ s ++ ws2) = s.
Proof.
  intros H1 H2 [Hh Ht]. unfold strip.
  destruct s as [|c s].
  - simpl. rewrite lstrip_all_spaces by (by apply Forall_app).
    done.
  - rewrite lstrip_spaces by done.
    unfold rstrip. rewrite rev_app_distr.
    rewrite lstrip_spaces; [by rewrite rev_involutive| |done].
    by apply Forall_rev.
Qed.

(** ** Cookie records *)

(** X1. Every record the cookie loop makes has a name without [=], a name
    and a value without white space at either end, the domain
    [.instagram.com] and the path [/]. *)
Theorem cookie_records_are_clean (cookie_header : str)
    (cookies : list cookie) :
  parse_cookies cookie_header = Some cookies →
  Forall (λ c, contains_char (ch "=") (name c) = false
               ∧ trimmed (name c) ∧ trimmed (value c)
               ∧ domain c = u ".instagram.com" ∧ path c = u "/") cookies.
Proof.
  unfold parse_cookies.
  destruct (cookie_loop_spec (split (ch ";") cookie_header) [])
    as (cs & -> & HF).
  intros [= <-]. simpl.
  induction HF as [|part c parts cs (n & v & _ & Hn & ->) _ IH];
    constructor; [|done].
  simpl. split_and!; [|apply strip_trimmed..|done|done].
  by rewrite contains_char_strip.
Qed.

Lemma cookie_records_are_clean_witness :
  Forall (λ c, contains_char (ch "=") (name c) = false
               ∧ trimmed (name c) ∧ trimmed (value c)
               ∧ domain c = u ".instagram.com" ∧ path c = u "/")
    [Cookie (u "a") (u "1") (u ".instagram.com") (u "/");
     Cookie (u "b") (u "2=x") (u ".instagram.com") (u "/")].
Proof.
  apply (cookie_records_are_clean (u " a = 1 ; b=2=x ;c")).
  vm_compute. reflexivity.
Defined.

Lemma split_fragment_chars (c sep : N) (s f : str) :
  f ∈ split sep s → contains_char c f = true → contains_char c s = true.
Proof.
  revert f. induction s as [|x s IH]; intros f; simpl.
  - intros ->%list_elem_of_singleton. done.
  - destruct (N.eqb_spec x sep) as [->|Hne].
    + intros [->|Hin]%elem_of_cons Hc; [done|].
      rewrite (IH f Hin Hc). apply orb_true_r.
    + destruct (split sep s) as [|f0 fs] eqn:Hs.
      { by destruct (split_nonempty sep s). }
      intros [->|Hin]%elem_of_cons Hc.
      * simpl in Hc. apply orb_true_iff in Hc as [->|Hc]; [done|].
        rewrite (IH f0); [apply orb_true_r|by left|done].
      * rewrite (IH f); [apply orb_true_r|by right|done].
Qed.

Lemma filter_has_eq_nil (l : list str) :
  Forall (λ f, contains_char (ch "=") f = false) l → filter has_eq l = [].
Proof.
  induction 1 as [|f l Hf _ IH]; [done|].
  rewrite filter_cons_False by (unfold has_eq; congruence). exact IH.
Qed.

Lemma parse_cookies_no_eq (h : str) :
  contains_char (ch "=") h = false → parse_cookies h = Some [].
Proof.
  intros Hh. unfold parse_cookies.
  destruct (cookie_loop_spec (split (ch ";") h) []) as (cs & -> & HF).
  assert (filter has_eq (split (ch ";") h) = []) as Hnil.
  { apply filter_has_eq_nil, Forall_forall. intros f Hf.
    destruct (contains_char (ch "=") f) eqn:Heq; [|done].
    by rewrite (split_fragment_chars _ _ _ _ Hf Heq) in Hh. }
  rewrite Hnil in HF. by apply Forall2_nil_inv_l in HF as ->.
Qed.

(** X2. Installing the cookies calls [add_cookies] at most once and never
    with an empty list; with no header, an empty header or a header that
    holds no [=] at all it makes no call and cannot fail. *)
Theorem add_cookies_only_with_records (cookie_header : option str)
    (w : world) (tr : list call) :
  ((run (install_cookies cookie_header) w tr).1 = tr
   ∨ ∃ c cs, parse_cookies (default [] cookie_header) = Some (c :: cs)
             ∧ (run (install_cookies cookie_header) w tr).1
               = tr ++ [Add_cookies (c :: cs)])
  ∧ (match cookie_header with
     | Some h => contains_char (ch "=") h = false
     | None => True
     end →
     run (install_cookies cookie_header) w tr = (tr, Return ())).
Proof.
  rewrite run_install_cookies. unfold cookie_calls. simpl. split.
  - destruct cookie_header as [h|]; [|left; apply app_nil_r].
    destruct (truthy (Some h)); [|left; apply app_nil_r].
    simpl. destruct (parse_cookies h) as [[|c cs]|];
      [left; apply app_nil_r|right; by exists c, cs|left; apply app_nil_r].
  - destruct cookie_header as [h|]; [|by rewrite app_nil_r].
    intros Hh. rewrite (parse_cookies_no_eq _ Hh).
    destruct (truthy (Some h)); by rewrite app_nil_r.
Qed.

Lemma add_cookies_only_with_records_witness :
  run (install_cookies (Some (u "sessionid; csrftoken"))) world_none []
  = ([], Return ()).
Proof.
  apply (proj2 (add_cookies_only_with_records
                  (Some (u "sessionid; csrftoken")) world_none [])).
  reflexivity.
Defined.

(** ** What the extractor returns *)

Lemma ci_char_dq (c : N) : ci_char dq c = true → c = dq.
Proof.
  unfold ci_char, lower, dq. simpl. rewrite !orb_false_r.
  destruct ((65 <=? c)%N && (c <=? 90)%N) eqn:E; intros H%N.eqb_eq; [|done].
  apply andb_true_iff in E as [E1%N.leb_le E2%N.leb_le]. lia.
Qed.

(** X3. What the extractor returns is never empty and holds no double
    quote; it stands in the document between two double quotes. *)
Theorem extracted_value_is_quoted_text (html v : str) :
  _extract_og_video html = Some v →
  v ≠ [] ∧ (dq ∉ v) ∧ ∃ pre post, html = pre ++ [dq] ++ v ++ [dq] ++ post.
Proof.
  intros (k & [Hk Hm] & _)%re_search_leftmost.
  destruct Hm as (a & w1 & b & w2 & c & rest & Hd & _ & _ & _ & _ & Hc
                  & Hv & Hq).
  split_and!; [done..|].
  apply Forall2_app_inv_l in Hc as (c1 & c2 & _ & Hc2 & ->).
  apply Forall2_cons_inv_l in Hc2 as (x & c3 & Hx%ci_char_dq & Hc3 & ->).
  apply Forall2_nil_inv_l in Hc3 as ->. subst x.
  exists (take k html ++ a ++ w1 ++ b ++ w2 ++ c1), rest.
  rewrite <-(take_drop k html) at 1. rewrite Hd.
  by rewrite <-!app_assoc.
Qed.

Lemma extracted_value_is_quoted_text_witness :
  u "https://x/y.mp4" ≠ [] ∧ (dq ∉ u "https://x/y.mp4")
  ∧ ∃ pre post,
      og_doc_upper = pre ++ [dq] ++ u "https://x/y.mp4" ++ [dq] ++ post.
Proof.
  apply (extracted_value_is_quoted_text og_doc_upper (u "https://x/y.mp4")).
  reflexivity.
Defined.

(** ** The file name *)

Lemma join_last_suffix (sep : N) (l : list str) (f : str) :
  last l = Some f → ∃ pre, join sep l = pre ++ f.
Proof.
  induction l as [|f0 [|f1 l] IH]; [done| |].
  - intros [= <-]. by exists [].
  - rewrite last_cons_cons. intros (pre & Hp)%IH.
    exists (f0 ++ sep :: pre).
    change (join sep (f0 :: f1 :: l)) with (f0 ++ sep :: join sep (f1 :: l)).
    by rewrite Hp, <-app_assoc.
Qed.

Lemma join_head_prefix (sep : N) (l : list str) (f : str) :
  head l = Some f → ∃ post, join sep l = f ++ post.
Proof.
  destruct l as [|f0 [|f1 l]]; [done| |]; intros [= <-].
  - exists []. by rewrite app_nil_r.
  - by exists (sep :: join sep (f1 :: l)).
Qed.

Lemma split_last_suffix (sep : N) (s f : str) :
  last (split sep s) = Some f → ∃ pre, s = pre ++ f.
Proof.
  intros (pre & H)%(join_last_suffix sep). rewrite split_join in H. eauto.
Qed.

Lemma split_head_prefix (sep : N) (s f : str) :
  head (split sep s) = Some f → ∃ post, s = f ++ post.
Proof.
  intros (post & H)%(join_head_prefix sep). rewrite split_join in H. eauto.
Qed.

(** X4. The file name suggestion never fails: for every media URL it is a
    part of the URL that holds neither [/] nor [?], followed by [.mp4]. *)
Theorem filename_is_clean (mp4 : str) :
  ∃ stem pre post,
    filename_of mp4 = Some (stem ++ u ".mp4")
    ∧ mp4 = pre ++ stem ++ post
    ∧ (ch "/" ∉ stem) ∧ (ch "?" ∉ stem).
Proof.
  unfold filename_of, vid_id, item_last, item_first.
  destruct (last (split (ch "/") mp4)) as [seg|] eqn:Hl.
  2:{ apply last_None in Hl. by destruct (split_nonempty (ch "/") mp4). }
  destruct (head (split (ch "?") seg)) as [stem|] eqn:Hh.
  2:{ apply head_None in Hh. by destruct (split_nonempty (ch "?") seg). }
  destruct (split_last_suffix _ _ _ Hl) as (pre & ->).
  destruct (split_head_prefix _ _ _ Hh) as (post & ->).
  exists stem, pre, post. split_and!; [simpl; by rewrite Hh|done| |].
  - pose proof (split_fragment_no_sep (ch "/") (pre ++ stem ++ post)) as HF.
    rewrite Forall_forall in HF.
    apply last_Some_elem_of in Hl. apply HF in Hl.
    rewrite contains_char_app in Hl. apply orb_false_iff in Hl as [Hs _].
    by intros ?%contains_char_elem; congruence.
  - pose proof (split_fragment_no_sep (ch "?") (stem ++ post)) as HF.
    rewrite Forall_forall in HF.
    apply head_Some_elem_of in Hh. apply HF in Hh.
    by intros ?%contains_char_elem; congruence.
Qed.

(** ** Canonical links *)

Lemma startswith_app_l (s p b : str) :
  startswith s p = true → startswith (s ++ b) p = true.
Proof.
  revert s. induction p as [|a p IH]; intros [|x s]; simpl; try done.
  - by destruct b.
  - intros [-> H]%andb_true_iff. by rewrite IH.
Qed.

Lemma contains_app_l (p s b : str) :
  contains p s = true → contains p (s ++ b) = true.
Proof.
  induction s as [|x s IH]; simpl.
  - rewrite orb_false_r. destruct p; [|done]. intros _. by destruct b.
  - intros [H|H]%orb_true_iff.
    + apply orb_true_iff. left. apply (startswith_app_l (x :: s) p b H).
    + rewrite (IH H). apply orb_true_r.
Qed.

Lemma for_hrefs_cons_old (max_count : option Z) (h : str)
    (rest : list str) (seen : gset str) (new : nat) :
  is_reel h = true → canonical h ∈ seen →
  for_hrefs max_count (h :: rest) seen new
  = for_hrefs max_count rest seen new.
Proof.
  intros Hr Hin. simpl. fold (is_reel h). rewrite Hr. simpl.
  assert ((if negb (endswith h (u "/")) then h ++ u "/" else h)
          = canonical h) as ->.
  { unfold canonical. by destruct (endswith h (u "/")). }
  by rewrite bool_decide_eq_true_2.
Qed.

(** X5. Canonicalization is idempotent and always ends with a slash; it
    keeps the reel-path marker; a link with and without its trailing
    slash have the same canonical form; and so the loop over a batch
    counts such a pair once: the second of the two changes nothing. *)
Theorem canonical_is_idempotent (href : str) :
  canonical (canonical href) = canonical href
  ∧ endswith (canonical href) (u "/") = true
  ∧ (is_reel href = true → is_reel (canonical href) = true)
  ∧ (endswith href (u "/") = false →
     canonical (href ++ u "/") = canonical href)
  ∧ (is_reel href = true → endswith href (u "/") = false →
     ∀ max_count rest seen new,
       for_hrefs max_count (href :: (href ++ u "/") :: rest) seen new
       = for_hrefs max_count (href :: rest) seen new).
Proof.
  assert (endswith (canonical href) (u "/") = true) as He.
  { unfold canonical. destruct (endswith href (u "/")) eqn:E; [done|].
    apply endswith_app. }
  assert (endswith href (u "/") = false →
          canonical (href ++ u "/") = canonical href) as Hc.
  { intros E. unfold canonical. by rewrite E, endswith_app. }
  split_and!; [|done| |done|].
  - unfold canonical at 1. by rewrite He.
  - unfold canonical, is_reel. destruct (endswith href (u "/")); [done|].
    apply contains_app_l.
  - intros Hr E max_count rest seen new.
    assert (is_reel (href ++ u "/") = true) as Hr'
      by (by apply contains_app_l).
    destruct (decide (canonical href ∈ seen)) as [Hin|Hin].
    + rewrite !(for_hrefs_cons_old _ href) by done.
      rewrite for_hrefs_cons_old; [done|done|]. by rewrite Hc.
    + rewrite !(for_hrefs_cons_new _ href) by done.
      destruct (cap_reached max_count _); [done|].
      rewrite for_hrefs_cons_old; [done|done|].
      rewrite Hc by done. set_solver.
Qed.

Lemma canonical_is_idempotent_witness :
  canonical (u "https://i/reel/1" ++ u "/") = canonical (u "https://i/reel/1").
Proof.
  apply (proj1 (proj2 (proj2 (proj2
           (canonical_is_idempotent (u "https://i/reel/1")))))).
  reflexivity.
Defined.

(** ** The listing URL *)

Lemma lstrip_char_run (c : N) (ats name : str) :
  Forall (λ x, x = c) ats → head name ≠ Some c →
  lstrip_char c (ats ++ name) = name.
Proof.
  intros Ha Hn. induction Ha as [|x ats -> _ IH]; simpl.
  - destruct name as [|y name]; [done|]. simpl.
    destruct (N.eqb_spec y c) as [->|]; [by destruct Hn|done].
  - by rewrite N.eqb_refl.
Qed.

(** X6. The listing URL is built from the account name with the white
    space around it and the [@] signs before it removed: for a name
    without white space at its ends that does not start with [@], any
    white space before, any run of [@], and any white space after change
    nothing. *)
Theorem reels_url_ignores_at_and_spaces (ws1 ats name ws2 : str) :
  Forall (λ c, isspace c = true) ws1 →
  Forall (λ c, isspace c = true) ws2 →
  Forall (λ c, c = ch "@") ats →
  trimmed name →
  head name ≠ Some (ch "@") →
  reels_url_of (ws1 ++ ats ++ name ++ ws2)
  = u "https://www.instagram.com/" ++ name ++ u "/reels/".
Proof.
  intros H1 H2 Ha [Hh Ht] Hn. unfold reels_url_of.
  replace (ws1 ++ ats ++ name ++ ws2) with (ws1 ++ (ats ++ name) ++ ws2)
    by (by rewrite <-!app_assoc).
  rewrite strip_of_trimmed; [by rewrite lstrip_char_run|done|done|].
  split.
  - destruct Ha as [|x ats -> _]; [done|]. done.
  - assert (nospace_head (rev ats)) as Hra.
    { apply Forall_rev in Ha. by destruct Ha as [|x l -> _]. }
    rewrite rev_app_distr. by destruct (rev name).
Qed.

Lemma reels_url_ignores_at_and_spaces_witness :
  reels_url_of (u "  " ++ u "@@" ++ u "bob" ++ u " ")
  = u "https://www.instagram.com/" ++ u "bob" ++ u "/reels/".
Proof.
  apply (reels_url_ignores_at_and_spaces (u "  ") (u "@@") (u "bob") (u " ")).
  - by repeat constructor.
  - by repeat constructor.
  - by repeat constructor.
  - by split.
  - done.
Defined.

(** ** Engine failures *)

Lemma reports_ret {A} (a : A) : reports_engine_failures (mret a).
Proof. intros w tr. exists []. rewrite app_nil_r. simpl. split; [done|]. lia. Qed.

Lemma reports_ask : reports_engine_failures ask.
Proof. intros w tr. exists []. rewrite app_nil_r. simpl. split; [done|]. lia. Qed.

Lemma reports_engine (c : call) : reports_engine_failures (engine c).
Proof.
  intros w tr. exists [c]. rewrite run_engine. simpl. split; [done|].
  destruct (fails w (length tr)) eqn:E.
  - exists c, (length tr). split_and!; [done|lia..|done].
  - intros i Hi. by replace i with (length tr) by lia.
Qed.

Lemma reports_bind {A B} (m : M A) (k : A → M B) :
  reports_engine_failures m →
  (∀ a, reports_engine_failures (k a)) →
  reports_engine_failures (m ≫= k).
Proof.
  intros Hm Hk w tr. rewrite run_bind.
  destruct (Hm w tr) as (a1 & Htr & H1).
  destruct (run m w tr) as [tr1 [a|e|]]; simpl in *; subst tr1.
  - destruct (Hk a w (tr ++ a1)) as (a2 & Htr2 & H2).
    exists (a1 ++ a2). rewrite Htr2, app_assoc. split; [done|].
    rewrite !length_app in *.
    destruct (run (k a) w (tr ++ a1)).2 as [b|e|]; [| |done].
    + intros i Hi. destruct (decide (i < length tr + length a1)).
      * apply H1. lia.
      * apply H2. lia.
    + destruct H2 as (c & i & -> & Hi & Hf).
      exists c, i. split_and!; [done|lia..|done].
  - exists a1. split; [done|exact H1].
  - by exists a1.
Qed.

Lemma reports_install_cookies (chd : option str) :
  reports_engine_failures (install_cookies chd).
Proof.
  intros w tr. rewrite run_install_cookies. exists (cookie_calls chd).
  simpl. split; [done|].
  assert (length (cookie_calls chd) ≤ 1) as Hl.
  { unfold cookie_calls. repeat case_match; simpl; lia. }
  destruct (cookie_calls chd) as [|c l]; simpl in *; [lia|].
  destruct (fails w (length tr)) eqn:E.
  - exists c, (length tr). split_and!; [done|lia..|done].
  - intros i Hi. by replace i with (length tr) by lia.
Qed.

Lemma reports_with {A} (body : M A) :
  reports_engine_failures body →
  reports_engine_failures (with_sync_playwright body).
Proof.
  intros Hb w tr. unfold with_sync_playwright. cbn [run].
  rewrite run_engine.
  destruct (fails w (length tr)) eqn:E0.
  { exists [Sync_playwright_enter]. simpl. split; [done|].
    exists Sync_playwright_enter, (length tr).
    split_and!; [done|lia..|done]. }
  destruct (Hb w (tr ++ [Sync_playwright_enter])) as (a1 & Htr & H1).
  destruct (run body w _) as [tr1 [a|e|]]; cbn [fst snd] in *; subst tr1.
  - rewrite run_engine.
    exists (Sync_playwright_enter :: a1 ++ [Sync_playwright_exit]).
    assert (length ((tr ++ [Sync_playwright_enter]) ++ a1)
            = length tr + 1 + length a1) as Hl
      by (rewrite !length_app; simpl; lia).
    rewrite Hl. rewrite length_app in H1. simpl in H1.
    destruct (fails w (length tr + 1 + length a1)) eqn:E1; cbn [fst snd];
      (split; [by rewrite <-!app_assoc|]); simpl; rewrite length_app; simpl.
    + exists Sync_playwright_exit, (length tr + 1 + length a1).
      split_and!; [done|lia..|done].
    + intros i Hi.
      destruct (decide (i = length tr)) as [->|]; [done|].
      destruct (decide (i = length tr + 1 + length a1)) as [->|]; [done|].
      apply H1. lia.
  - rewrite run_engine.
    exists (Sync_playwright_enter :: a1 ++ [Sync_playwright_exit]).
    assert (length ((tr ++ [Sync_playwright_enter]) ++ a1)
            = length tr + 1 + length a1) as Hl
      by (rewrite !length_app; simpl; lia).
    rewrite Hl. rewrite length_app in H1. simpl in H1.
    destruct (fails w (length tr + 1 + length a1)) eqn:E1; cbn [fst snd];
      (split; [by rewrite <-!app_assoc|]); simpl; rewrite length_app; simpl.
    + exists Sync_playwright_exit, (length tr + 1 + length a1).
      split_and!; [done|lia..|done].
    + destruct H1 as (c & i & -> & Hi & Hf).
      exists c, i. split_and!; [done|lia..|done].
  - exists (Sync_playwright_enter :: a1).
    by rewrite <-app_assoc.
Qed.

Lemma reports_while_true (fuel : nat) (max_count : option Z) :
  ∀ (n : nat) (seen : gset str) (idle_rounds : nat),
    reports_engine_failures (while_true fuel max_count n seen idle_rounds).
Proof.
  induction fuel as [|fuel IH]; intros n seen idle_rounds.
  { intros w tr. exists []. by rewrite app_nil_r. }
  rewrite while_true_S.
  apply reports_bind; [apply reports_engine|intros _].
  apply reports_bind; [apply reports_ask|intros w0].
  cbv zeta. destruct (for_hrefs _ _ _ _) as [seen' new].
  destruct (cap_reached _ _); [apply reports_ret|].
  destruct (idle_limit <=? _); [apply reports_ret|].
  apply reports_bind; [apply reports_engine|intros _].
  apply reports_bind; [apply reports_engine|intros _].
  apply IH.
Qed.

Lemma reports_fetch_html (url : str) (chd : option str) :
  reports_engine_failures (_playwright_fetch_html url chd).
Proof.
  unfold _playwright_fetch_html. apply reports_with.
  repeat (apply reports_bind;
          [first [apply reports_engine|apply reports_install_cookies
                 |apply reports_ask]|intros ?]).
  apply reports_ret.
Qed.

Lemma reports_collect (fuel : nat) (username : str) (max_count : option Z)
    (chd : option str) :
  reports_engine_failures
    (_playwright_collect_reels fuel username max_count chd).
Proof.
  unfold _playwright_collect_reels.
  apply reports_bind; [|intros; apply reports_ret].
  apply reports_with.
  repeat (apply reports_bind;
          [first [apply reports_engine|apply reports_install_cookies
                 |apply reports_while_true]|intros ?]).
  apply reports_ret.
Qed.

(** ** The calls of a session *)

Lemma follows_ret {A} (a : A) : follows (mret a) [].
Proof. intros w tr. exists []. by rewrite app_nil_r. Qed.

Lemma follows_ask : follows ask [].
Proof. intros w tr. exists []. by rewrite app_nil_r. Qed.

Lemma follows_engine (c : call) : follows (engine c) [c].
Proof.
  intros w tr. exists [c]. rewrite run_engine. simpl.
  split_and!; [done..|]. by destruct (fails w _).
Qed.

Lemma follows_bind {A B} (m : M A) (k : A → M B) (s1 s2 : list call) :
  follows m s1 → (∀ a, follows (k a) s2) → follows (m ≫= k) (s1 ++ s2).
Proof.
  intros Hm Hk w tr. rewrite run_bind.
  destruct (Hm w tr) as (a1 & Htr & Hp & H1).
  destruct (run m w tr) as [tr1 [a|e|]]; simpl in *; subst tr1.
  - subst a1. destruct (Hk a w (tr ++ s1)) as (a2 & Htr2 & Hp2 & H2).
    exists (s1 ++ a2). rewrite Htr2, app_assoc.
    split_and!; [done|by apply prefix_app|].
    destruct (run (k a) w (tr ++ s1)).2; [by subst|done..].
  - exists a1. split_and!; [done|by apply prefix_app_r|done].
  - done.
Qed.

Lemma follows_install_cookies (chd : option str) :
  follows (install_cookies chd) (cookie_calls chd).
Proof.
  intros w tr. rewrite run_install_cookies. exists (cookie_calls chd).
  simpl. split_and!; [done..|].
  destruct (cookie_calls chd); [done|]. by destruct (fails w _).
Qed.

Lemma follows_session (url : str) (chd : option str) :
  follows (engine Chromium_launch;;
           engine New_context;;
           install_cookies chd;;
           engine New_page;;
           engine (Goto url);;
           engine (Wait_for_timeout 1500);;
           engine Content;;
           w ← ask;
           let html := page_content w in
           engine Context_close;;
           engine Browser_close;;
           mret html)
    (session_script url chd).
Proof.
  unfold session_script.
  apply (follows_bind _ _ [_]); [apply follows_engine|intros _].
  apply (follows_bind _ _ [_]); [apply follows_engine|intros _].
  apply follows_bind; [apply follows_install_cookies|intros _].
  apply (follows_bind _ _ [_]); [apply follows_engine|intros _].
  apply (follows_bind _ _ [_]); [apply follows_engine|intros _].
  apply (follows_bind _ _ [_]); [apply follows_engine|intros _].
  apply (follows_bind _ _ [_]); [apply follows_engine|intros _].
  apply (follows_bind _ _ []); [apply follows_ask|intros w0].
  apply (follows_bind _ _ [_]); [apply follows_engine|intros _].
  apply (follows_bind _ _ [_] []); [apply follows_engine|intros _].
  apply follows_ret.
Qed.

(** X9. In every world, the calls of [_playwright_fetch_html] are the
    entry into the [sync_playwright()] scope, then an initial part of the
    fixed sequence launch, new context, cookies, new page, navigation,
    wait of 1500 ms, content, context close, browser close, then the exit
    of the scope; when the entry itself fails nothing follows it. The
    function returns only after the whole sequence, and then it returns
    the content of the page. *)
Theorem session_calls_in_order (url : str) (chd : option str) (w : world)
    (tr : list call) :
  ∃ added,
    (run (_playwright_fetch_html url chd) w tr).1
    = tr ++ Sync_playwright_enter :: added
    ∧ if fails w (length tr) then added = []
      else ∃ pre,
        added = pre ++ [Sync_playwright_exit]
        ∧ pre `prefix_of` session_script url chd
        ∧ match (run (_playwright_fetch_html url chd) w tr).2 with
          | Return html => pre = session_script url chd
                           ∧ html = page_content w
          | Raise _ => True
          | Diverge => False
          end.
Proof.
  destruct (fetch_html_spec url chd w tr) as (added0 & r & Hr & _ & _ & Hh).
  revert Hr. unfold _playwright_fetch_html, with_sync_playwright.
  cbn [run]. rewrite run_engine.
  destruct (fails w (length tr)) eqn:E0.
  { intros _. by exists []. }
  destruct (follows_session url chd w (tr ++ [Sync_playwright_enter]))
    as (pre & Htr & Hp & H).
  destruct (run _ w (tr ++ [Sync_playwright_enter])) as [tr1 [a|e|]];
    cbn [fst snd] in *; subst tr1; [| |done].
  - rewrite run_engine. intros Hr.
    exists (pre ++ [Sync_playwright_exit]).
    destruct (fails w (length ((tr ++ [Sync_playwright_enter]) ++ pre)));
      cbn [fst snd] in *;
      (split; [by rewrite <-!app_assoc|]);
      exists pre; (split; [done|]); (split; [done|]); [done|].
    split; [done|]. apply Hh. by injection Hr as _ <-.
  - rewrite run_engine. intros _.
    exists (pre ++ [Sync_playwright_exit]).
    destruct (fails w (length ((tr ++ [Sync_playwright_enter]) ++ pre)));
      cbn [fst snd] in *;
      (split; [by rewrite <-!app_assoc|]);
      exists pre; by split_and!.
Qed.

Lemma fetch_html_returns (url : str) (chd : option str) (w : world)
    (tr tr' : list call) (html : str) :
  run (_playwright_fetch_html url chd) w tr = (tr', Return html) →
  tr' = tr ++ Sync_playwright_enter :: session_script url chd
           ++ [Sync_playwright_exit].
Proof.
  unfold _playwright_fetch_html. intros H.
  apply inv_with in H as (tr2 & H & ->).
  destruct (follows_session url chd w (tr ++ [Sync_playwright_enter]))
    as (pre & Htr & _ & Hs).
  cbv zeta in H, Htr, Hs. rewrite H in Htr, Hs. clear H.
  cbn [fst snd] in Htr, Hs. subst.
  by rewrite <-!app_assoc.
Qed.

(** ** What [resolve_direct_mp4] raises *)



(** X8. When the fetch yields no usable media URL, the failure of any
    engine call of the session, from the entry into the scope to its
    exit, makes the resolution raise the error of an engine call: also
    when the call that fails is [browser.close()], after the page was
    read. *)
Theorem engine_failure_fails_resolution (p : ResolveIn) (w : world)
    (i : nat) :
  match fast_path_url w with
  | Some mp4 => fields_ok w (reel_url p) mp4 = false
  | None => True
  end →
  1 ≤ i ≤ 10 + length (cookie_calls (cookie_header p)) →
  fails w i = true →
  ∃ c, (run (resolve_direct_mp4 p) w []).2 = Raise (EngineError c).
Proof.
  intros Hf Hi Hfl. rewrite run_resolve_fallback by done.
  destruct (reports_fetch_html (reel_url p) (cookie_header p) w
              ([] ++ [fast_request w p])) as (added & Htr & H).
  destruct (fetch_html_spec (reel_url p) (cookie_header p) w
              ([] ++ [fast_request w p])) as (a0 & r & Hr & _ & Hd & _).
  destruct r as [html|e|]; [| |done].
  - pose proof (fetch_html_returns _ _ _ _ _ _ Hr) as Hs.
    rewrite Hr in Htr, H. cbn [fst snd] in *.
    rewrite Hs in Htr. apply app_inv_head in Htr. subst added.
    rewrite (H i) in Hfl; [done|].
    unfold session_script. simpl. rewrite !length_app. simpl. lia.
  - rewrite Hr in H |- *. cbn [fst snd] in *.
    destruct H as (c & _ & -> & _). by exists c.
Qed.

Lemma engine_failure_fails_resolution_witness :
  ∃ c, (run (resolve_direct_mp4 payload0) world_close_fails []).2
       = Raise (EngineError c).
Proof.
  apply (engine_failure_fails_resolution payload0 world_close_fails 9);
    [done|simpl; lia|reflexivity].
Defined.

(** ** What the collector returns, whatever the maximum *)

Lemma endswith_canonical (href : str) :
  endswith (canonical href) (u "/") = true.
Proof.
  unfold canonical. destruct (endswith href (u "/")) eqn:E; [done|].
  apply endswith_app.
Qed.

Lemma is_reel_canonical (href : str) :
  is_reel href = true → is_reel (canonical href) = true.
Proof.
  unfold canonical, is_reel. destruct (endswith href (u "/")); [done|].
  apply contains_app_l.
Qed.

Lemma elem_of_reel_links (hrefs : list str) (x : str) :
  x ∈ reel_links hrefs →
  ∃ href, href ∈ hrefs ∧ is_reel href = true ∧ x = canonical href.
Proof.
  induction hrefs as [|h hrefs IH]; simpl; [by intros ?%elem_of_nil|].
  destruct (is_reel h) eqn:E.
  - intros [->|Hx]%elem_of_cons.
    + exists h. split_and!; [left|done|done].
    + destruct (IH Hx) as (href & ? & ? & ?). exists href.
      split_and!; [by right|done|done].
  - intros Hx. destruct (IH Hx) as (href & ? & ? & ?). exists href.
    split_and!; [by right|done|done].
Qed.

(** The record and the links of a loop that returns. *)
Lemma while_true_record (max_count : option Z) (w : world) (fuel : nat) :
  ∀ (n : nat) (seen : gset str) (idle : nat) (tr tr' : list call)
    (S' : gset str),
  run (while_true fuel max_count n seen idle) w tr = (tr', Return S') →
  ∃ k, tr' = tr ++ rounds_calls k ++ [Eval_on_selector_all]
    ∧ ∀ x, x ∈ S' →
        x ∈ seen
        ∨ ∃ j href, n ≤ j ≤ n + k ∧ href ∈ page_hrefs w j
                    ∧ is_reel href = true ∧ x = canonical href.
Proof.
  induction fuel as [|fuel IH]; intros n seen idle tr tr' S' Hrun; [done|].
  apply while_true_step_returns in Hrun.
  destruct (for_hrefs max_count (page_hrefs w n) seen 0)
    as [seen' new] eqn:Hf.
  destruct (for_hrefs_spec _ _ _ _ _ _ Hf) as (_ & H2 & _).
  assert (∀ x, x ∈ seen' →
            x ∈ seen
            ∨ ∃ j href, n ≤ j ≤ n + 0 ∧ href ∈ page_hrefs w j
                        ∧ is_reel href = true ∧ x = canonical href) as Hin.
  { intros x Hx. apply H2 in Hx. apply elem_of_union in Hx as [Hx|Hx];
      [by left|right].
    apply elem_of_list_to_set, elem_of_reel_links in Hx
      as (href & ? & ? & ?).
    exists n, href. split_and!; [lia|lia|done..]. }
  destruct Hrun
    as [(_ & -> & ->)|[(_ & _ & -> & ->)|(_ & _ & Hrun)]].
  - by exists 0.
  - by exists 0.
  - apply IH in Hrun as (k & -> & Hk). exists (S k). split.
    + simpl. by rewrite <-!app_assoc.
    + intros x Hx. destruct (Hk x Hx) as [Hs|(j & href & Hj & ?)].
      * destruct (Hin x Hs) as [?|(j & href & Hj & ?)]; [by left|right].
        exists j, href. split; [lia|done].
      * right. exists j, href. split; [lia|done].
Qed.

(** X10. Whatever the maximum and whatever the engine does, every link
    that the collector returns holds the reel-path marker, ends with a
    slash, and is the canonical form of a link harvested in one of the
    rounds made. *)
Theorem collected_links_are_reel_links (fuel : nat) (username : str)
    (max_count : option Z) (chd : option str) (w : world) (tr : list call)
    (out : list str) :
  run (_playwright_collect_reels fuel username max_count chd) w []
  = (tr, Return out) →
  Forall (λ x, is_reel x = true ∧ endswith x (u "/") = true
               ∧ ∃ j href, j < rounds tr ∧ href ∈ page_hrefs w j
                           ∧ is_reel href = true ∧ x = canonical href) out.
Proof.
  intros (tr1 & seen & Hw & -> & ->)%collect_returns.
  apply while_true_record in Hw as (k & -> & Hk).
  apply Forall_forall. intros x Hx%sorted_elem.
  destruct (Hk x Hx) as [Hx0|(j & href & Hj & Hh & Hr & ->)];
    [by apply elem_of_empty in Hx0|].
  split_and!; [by apply is_reel_canonical|apply endswith_canonical|].
  exists j, href. split_and!; [|done..].
  replace ((setup_calls username chd ++ rounds_calls k
              ++ [Eval_on_selector_all]) ++ closing_calls)
    with (collection_calls username chd k)
    by (unfold collection_calls; by rewrite <-!app_assoc).
  rewrite rounds_collection. lia.
Qed.

Lemma collected_links_are_reel_links_witness :
  Forall (λ x, is_reel x = true ∧ endswith x (u "/") = true
               ∧ ∃ j href, j < rounds (collection_calls (u "bob") None 15)
                           ∧ href ∈ page_hrefs (world_links 2) j
                           ∧ is_reel href = true ∧ x = canonical href)
    (sorted (discovered (world_links 2) 16)).
Proof.
  apply (collected_links_are_reel_links 16 (u "bob") (Some 0%Z) None
           (world_links 2)).
  apply collect_world_links. lia.
Defined.

Lemma collect_returns_record (fuel : nat) (username : str)
    (max_count : option Z) (chd : option str) (w : world) (tr : list call)
    (out : list str) :
  run (_playwright_collect_reels fuel username max_count chd) w []
  = (tr, Return out) →
  ∃ k, tr = collection_calls username chd k.
Proof.
  intros (tr1 & seen & Hw & -> & ->)%collect_returns.
  apply while_true_record in Hw as (k & -> & _).
  exists k. unfold collection_calls. by rewrite <-!app_assoc.
Qed.

Lemma collect_returns_quiet (fuel : nat) (username : str)
    (max_count : option Z) (chd : option str) (w : world) (tr : list call)
    (out : list str) :
  run (_playwright_collect_reels fuel username max_count chd) w []
  = (tr, Return out) →
  ∀ i, i < length tr → fails w i = false.
Proof.
  intros Hrun.
  destruct (reports_collect fuel username max_count chd w [])
    as (added & Htr & H).
  rewrite Hrun in Htr, H. cbn [fst snd] in *. simpl in Htr. subst added.
  intros i Hi. apply H. simpl. lia.
Qed.

(** X13. The collector returns only when no call to the engine has
    failed, and its record of calls is then the set-up, a number of full
    rounds (harvest, scroll, wait of 1200 ms), one last harvest, the two
    closes and the exit of the scope: one harvest more than scrolls. *)
Theorem collector_returns_clean_record (fuel : nat) (username : str)
    (max_count : option Z) (chd : option str) (w : world) (tr : list call)
    (out : list str) :
  run (_playwright_collect_reels fuel username max_count chd) w []
  = (tr, Return out) →
  (∃ k, tr = collection_calls username chd k
        ∧ rounds tr = S k ∧ scrolls tr = k)
  ∧ ∀ i, i < length tr → fails w i = false.
Proof.
  intros Hrun. split; [|by eapply collect_returns_quiet].
  destruct (collect_returns_record _ _ _ _ _ _ _ Hrun) as (k & ->).
  exists k.
  split_and!; [done|apply rounds_collection|apply scrolls_collection].
Qed.

Lemma collector_returns_clean_record_witness :
  (∃ k, collection_calls (u "bob") None 15 = collection_calls (u "bob") None k
        ∧ rounds (collection_calls (u "bob") None 15) = S k
        ∧ scrolls (collection_calls (u "bob") None 15) = k)
  ∧ ∀ i, i < length (collection_calls (u "bob") None 15) →
         fails (world_links 2) i = false.
Proof.
  apply (collector_returns_clean_record 16 (u "bob") (Some 0%Z) None
           (world_links 2) _ (sorted (discovered (world_links 2) 16))).
  apply collect_world_links. lia.
Defined.

(** ** A negative maximum *)

Lemma cap_reached_negative (m : Z) (seen : gset str) :
  (m < 0)%Z → cap_reached (Some m) seen = true.
Proof.
  intros Hm. unfold cap_reached. apply andb_true_iff. split.
  - apply negb_true_iff, Z.eqb_neq. lia.
  - apply Z.leb_le. lia.
Qed.

Lemma for_hrefs_cons_skip (max_count : option Z) (h : str)
    (rest : list str) (seen : gset str) (new : nat) :
  is_reel h = false →
  for_hrefs max_count (h :: rest) seen new
  = for_hrefs max_count rest seen new.
Proof. intros Hr. simpl. fold (is_reel h). by rewrite Hr. Qed.

Lemma for_hrefs_negative (m : Z) (hrefs : list str) :
  (m < 0)%Z →
  for_hrefs (Some m) hrefs ∅ 0
  = (list_to_set (take 1 (reel_links hrefs)),
     length (take 1 (reel_links hrefs))).
Proof.
  intros Hm. induction hrefs as [|h rest IH]; [done|].
  change (reel_links (h :: rest))
    with (if is_reel h then canonical h :: reel_links rest
          else reel_links rest).
  destruct (is_reel h) eqn:E.
  - rewrite for_hrefs_cons_new by (done || set_solver).
    rewrite cap_reached_negative by done. simpl.
    by rewrite union_empty_l_L, union_empty_r_L.
  - by rewrite for_hrefs_cons_skip.
Qed.

Lemma sorted_take_1 (l : list str) :
  sorted (list_to_set (take 1 l)) = take 1 l.
Proof.
  unfold sorted. destruct l as [|x l]; simpl.
  - by rewrite elements_empty.
  - by rewrite union_empty_r_L, elements_singleton.
Qed.

(** X11. With a negative maximum, and no failure of the engine, the
    collector makes one harvest and returns at most one link: the
    canonical form of the first reel link of the first batch. *)
Theorem negative_maximum_stops_at_first_link (fuel : nat) (username : str)
    (m : Z) (chd : option str) (w : world) :
  (m < 0)%Z →
  (∀ i, fails w i = false) →
  run (_playwright_collect_reels (S fuel) username (Some m) chd) w []
  = (collection_calls username chd 0,
     Return (take 1 (reel_links (page_hrefs w 0)))).
Proof.
  intros Hm Hq.
  erewrite collect_quiet; [|done|].
  2:{ rewrite while_true_step_quiet by done.
      rewrite for_hrefs_negative by done.
      by rewrite cap_reached_negative by done. }
  rewrite sorted_take_1. unfold collection_calls. simpl.
  by rewrite <-!app_assoc.
Qed.

Lemma negative_maximum_stops_at_first_link_witness :
  run (_playwright_collect_reels 1 (u "bob") (Some (-1)%Z) None)
    (world_links 3) []
  = (collection_calls (u "bob") None 0, Return [nth_link 0]).
Proof.
  apply (negative_maximum_stops_at_first_link 0 (u "bob") (-1) None
           (world_links 3)); [lia|reflexivity].
Defined.

(** ** A feed without end *)

Lemma collect_diverges (fuel : nat) (username : str)
    (max_count : option Z) (chd : option str) (w : world)
    (tr1 : list call) :
  (∀ i, fails w i = false) →
  run (while_true fuel max_count 0 ∅ 0) w (setup_calls username chd)
  = (tr1, Diverge) →
  run (_playwright_collect_reels fuel username max_count chd) w []
  = (tr1, Diverge).
Proof.
  intros Hq Hw. unfold _playwright_collect_reels.
  rewrite run_bind.
  erewrite run_with_quiet; [|done|].
  2:{ do 6 (rewrite run_bind;
            rewrite ?run_engine_quiet, ?run_install_cookies_quiet by done).
      rewrite run_bind.
      rewrite <-!app_assoc. cbn [app].
      unfold setup_calls in Hw. cbn [app] in Hw.
      rewrite Hw. reflexivity. }
  reflexivity.
Qed.

Lemma discovered_endless (k : nat) :
  discovered world_endless k = list_to_set (nth_link <$> seq 0 k).
Proof.
  induction k as [|k IH]; [done|].
  change (discovered world_endless (S k))
    with (discovered world_endless k
            ∪ list_to_set (reel_links (nth_link <$> [k]))).
  rewrite reel_links_nth, IH, seq_S, fmap_app, list_to_set_app_L.
  done.
Qed.

Lemma idle_streak_endless (k : nat) : idle_streak world_endless k = 0.
Proof.
  destruct k as [|k]; [done|]. simpl.
  rewrite decide_False; [done|].
  unfold idle_round. intros H.
  assert (nth_link k ∈ discovered world_endless (S k)) as Hin.
  { rewrite discovered_endless, seq_S, fmap_app. set_solver. }
  rewrite H, discovered_endless in Hin.
  apply elem_of_list_to_set, list_elem_of_fmap_inj_2 in Hin; [|apply _].
  apply elem_of_seq in Hin. lia.
Qed.

(** X12. The loop has no bound of its own on the number of rounds: when
    no call fails, the maximum is never reached and no fifteen rounds in a
    row are idle, the collector does not return, whatever the fuel; it
    goes on harvesting and scrolling. *)
Theorem collector_never_returns_on_endless_feed (fuel : nat)
    (username : str) (max_count : option Z) (chd : option str)
    (w : world) :
  (∀ i, fails w i = false) →
  (∀ k, cap_reached max_count (discovered w k) = false) →
  (∀ k, idle_streak w k < idle_limit) →
  run (_playwright_collect_reels fuel username max_count chd) w []
  = (setup_calls username chd ++ rounds_calls fuel, Diverge).
Proof.
  intros Hq Hc Hs. apply collect_diverges; [done|].
  pose proof (while_true_reach max_count w fuel Hq (Hc fuel)
                (λ i _, Hs i) 0 (setup_calls username chd)) as H.
  rewrite Nat.add_0_r in H. by rewrite H.
Qed.

Lemma collector_never_returns_on_endless_feed_witness :
  run (_playwright_collect_reels 40 (u "bob") None None) world_endless []
  = (setup_calls (u "bob") None ++ rounds_calls 40, Diverge).
Proof.
  apply (collector_never_returns_on_endless_feed 40 (u "bob") None None
           world_endless); [done|done|].
  intros k. rewrite idle_streak_endless. unfold idle_limit. lia.
Defined.

(** ** A cookie header without records *)

Lemma cookie_calls_no_eq (h : str) :
  contains_char (ch "=") h = false → cookie_calls (Some h) = [].
Proof.
  intros H. unfold cookie_calls. destruct (truthy (Some h)); [|done].
  by rewrite parse_cookies_no_eq.
Qed.

Lemma run_install_cookies_no_eq (h : str) (w : world) (tr : list call) :
  contains_char (ch "=") h = false →
  run (install_cookies (Some h)) w tr = run (install_cookies None) w tr.
Proof.
  intros H. rewrite !run_install_cookies, cookie_calls_no_eq by done.
  done.
Qed.

(** X16. For the two browser sessions, a cookie header that holds no [=]
    at all (an empty one, white space, names without values) is the same
    as no cookie header: the runs are equal, call for call. *)
Theorem header_without_records_is_no_header (h : str) :
  contains_char (ch "=") h = false →
  (∀ url w tr,
     run (_playwright_fetch_html url (Some h)) w tr
     = run (_playwright_fetch_html url None) w tr)
  ∧ (∀ fuel username max_count w tr,
       run (_playwright_collect_reels fuel username max_count (Some h)) w tr
       = run (_playwright_collect_reels fuel username max_count None) w tr).
Proof.
  intros H. split.
  - intros url w tr. unfold _playwright_fetch_html.
    apply run_with_ext. intros tr1.
    do 2 (apply run_bind_ext_r; intros [] ?).
    apply run_bind_ext. intros ?. by apply run_install_cookies_no_eq.
  - intros fuel username max_count w tr. unfold _playwright_collect_reels.
    apply run_bind_ext. intros tr0. apply run_with_ext. intros tr1.
    do 2 (apply run_bind_ext_r; intros [] ?).
    apply run_bind_ext. intros ?. by apply run_install_cookies_no_eq.
Qed.

Lemma header_without_records_is_no_header_witness :
  (∀ url w tr,
     run (_playwright_fetch_html url (Some (u "sessionid; csrftoken"))) w tr
     = run (_playwright_fetch_html url None) w tr)
  ∧ (∀ fuel username max_count w tr,
       run (_playwright_collect_reels fuel username max_count
              (Some (u "sessionid; csrftoken"))) w tr
       = run (_playwright_collect_reels fuel username max_count None) w tr).
Proof.
  apply (header_without_records_is_no_header (u "sessionid; csrftoken")).
  reflexivity.
Defined.

(** ** [list_reels] *)

(** X14. [list_reels] fails in two ways only. It raises the 502 [Failed
    to collect reels] error when the collector raised, and what the
    collector raised is then the error of an engine call that failed. It
    raises the validation error of the response after a collection that
    returned, with the session closed and no call failed, when one of the
    links is refused as a URL. *)
Theorem list_reels_failures (fuel : nat) (name : str) (q : ReelsQuery)
    (w : world) (tr : list call) (e : route_exn) :
  list_reels fuel name q w = (tr, Failed e) →
  (e = Reels_ValidationError
   ∧ (∃ k, tr = collection_calls name (query_cookie_header q) k)
   ∧ (∀ i, i < length tr → fails w i = false)
   ∧ ∃ out, run (_playwright_collect_reels fuel name (max q)
                   (query_cookie_header q)) w [] = (tr, Return out)
            ∧ Exists (λ x, http_url_ok w x = false) out)
  ∨ (∃ c i, e = Failed_to_collect 502 (EngineError c)
            ∧ i < length tr ∧ fails w i = true).
Proof.
  unfold list_reels.
  destruct (reports_collect fuel name (max q) (query_cookie_header q) w [])
    as (added & Htr & H).
  destruct (run _ w []) as [tr0 [out|e0|]] eqn:Hrun; cbn [fst snd] in *.
  - destruct (mapM (HttpUrl w) out) as [reels|] eqn:Hok; [done|].
    intros [= <- <-]. left. split_and!; [done| | |].
    + by eapply collect_returns_record.
    + by eapply collect_returns_quiet.
    + exists out. split; [done|].
      apply mapM_None in Hok. eapply Exists_impl; [done|].
      intros x Hx. unfold http_url_ok. by rewrite Hx.
  - intros [= <- <-]. right. destruct H as (c & i & -> & Hi & Hf).
    exists c, i. simpl in Htr. subst tr0. split_and!; [done|simpl in Hi; lia|done].
  - done.
Qed.

Lemma list_reels_failures_witness :
  (Failed_to_collect 502 (EngineError (Goto (reels_url_of (u "bob"))))
   = Reels_ValidationError
   ∧ (∃ k, [Sync_playwright_enter; Chromium_launch; New_context; New_page;
            Goto (reels_url_of (u "bob")); Sync_playwright_exit]
           = collection_calls (u "bob") None k)
   ∧ (∀ i, i < 6 → fails world_timeout i = false)
   ∧ ∃ out, run (_playwright_collect_reels 0 (u "bob") None None)
              world_timeout []
            = ([Sync_playwright_enter; Chromium_launch; New_context;
                New_page; Goto (reels_url_of (u "bob"));
                Sync_playwright_exit], Return out)
            ∧ Exists (λ x, http_url_ok world_timeout x = false) out)
  ∨ (∃ c i, Failed_to_collect 502 (EngineError (Goto (reels_url_of (u "bob"))))
            = Failed_to_collect 502 (EngineError c)
            ∧ i < 6 ∧ fails world_timeout i = true).
Proof.
  apply (list_reels_failures 0 (u "bob")
           {| max := None; query_cookie_header := None |} world_timeout).
  reflexivity.
Defined.

Lemma mapM_Some_id (l : list str) : mapM (λ s, Some s) l = Some l.
Proof. apply mapM_Some. by apply Forall_Forall2_diag, Forall_true. Qed.

(** X15. When [list_reels] responds, the response echoes the user name
    as it was given, its count is the number of links listed, and the
    links listed are, one for one and in the same order, the validated
    forms of the links that the collector returned; these are in strictly
    ascending order (so none of them twice) and hold the reel-path marker,
    and, under a positive maximum, there are no more of them than the
    maximum. The validated forms themselves are what the validation makes
    of the links. *)
Theorem list_reels_response (fuel : nat) (name : str) (q : ReelsQuery)
    (w : world) (tr : list call) (r : ReelsOut) :
  list_reels fuel name q w = (tr, Responded r) →
  username r = name
  ∧ count r = length (reels r)
  ∧ (∃ urls,
       run (_playwright_collect_reels fuel name (max q)
              (query_cookie_header q)) w [] = (tr, Return urls)
       ∧ StronglySorted str_lt urls
       ∧ Forall (λ x, is_reel x = true) urls
       ∧ Forall2 (λ x y, HttpUrl w x = Some y) urls (reels r))
  ∧ (∀ m, max q = Some m → (0 < m)%Z → (Z.of_nat (count r) ≤ m)%Z).
Proof.
  unfold list_reels.
  destruct (run _ w []) as [tr0 [out|e0|]] eqn:Hrun; [|done..].
  destruct (mapM (HttpUrl w) out) as [links|] eqn:Hok; [|done].
  intros [= <- <-]. cbn [username count reels].
  apply mapM_Some in Hok.
  split_and!; [done|by eapply Forall2_length| |].
  - exists out. split_and!; [done| | |done].
    + apply collect_returns in Hrun as (? & seen & _ & _ & ->).
      apply sorted_strict.
    + apply Forall_forall. intros x Hx.
      pose proof Hrun as (tr1 & seen & Hw & _ & ->)%collect_returns.
      apply while_true_record in Hw as (k & _ & Hk).
      apply sorted_elem in Hx.
      destruct (Hk x Hx) as [Hx0|(j & href & _ & _ & Hr & ->)];
        [by apply elem_of_empty in Hx0|].
      by apply is_reel_canonical.
  - intros m Hm Hpos.
    apply collect_returns_spec in Hrun as (k & S' & _ & -> & _ & Hend).
    + rewrite sorted_length. rewrite Hm in Hend.
      destruct Hend as [[_ Heq]|(Hcap & _)].
      * rewrite (Heq m eq_refl). lia.
      * apply cap_reached_false_lt in Hcap; [lia|done].
    + rewrite Hm. unfold cap_reached. rewrite size_empty.
      destruct (Z.eqb_spec m 0); [done|]. simpl. apply Z.leb_gt. lia.
Qed.

Lemma list_reels_response_witness :
  u "bob" = u "bob"
  ∧ length (sorted (discovered (world_links 2) 16))
    = length (sorted (discovered (world_links 2) 16))
  ∧ (∃ urls,
       run (_playwright_collect_reels 16 (u "bob") (Some 0%Z) None)
         (world_links 2) []
       = (collection_calls (u "bob") None 15, Return urls)
       ∧ StronglySorted str_lt urls
       ∧ Forall (λ x, is_reel x = true) urls
       ∧ Forall2 (λ x y, HttpUrl (world_links 2) x = Some y) urls
           (sorted (discovered (world_links 2) 16)))
  ∧ (∀ m, Some 0%Z = Some m → (0 < m)%Z →
       (Z.of_nat (length (sorted (discovered (world_links 2) 16))) ≤ m)%Z).
Proof.
  apply (list_reels_response 16 (u "bob")
           {| max := Some 0%Z; query_cookie_header := None |}
           (world_links 2) (collection_calls (u "bob") None 15)
           {| username := u "bob";
              count := length (sorted (discovered (world_links 2) 16));
              reels := sorted (discovered (world_links 2) 16) |}).
  unfold list_reels. cbn [max query_cookie_header].
  rewrite collect_world_links by lia.
  change (HttpUrl (world_links 2)) with (λ s : str, Some s).
  by rewrite mapM_Some_id.
Defined.

(** ** What the resolution reads of the fetched page *)

Lemma run_engine_worlds (c : call) (w1 w2 : world) (tr : list call) :
  fails w1 = fails w2 → run (engine c) w1 tr = run (engine c) w2 tr.
Proof. intros H. by rewrite !run_engine, H. Qed.

Lemma run_install_cookies_worlds (chd : option str) (w1 w2 : world)
    (tr : list call) :
  fails w1 = fails w2 →
  run (install_cookies chd) w1 tr = run (install_cookies chd) w2 tr.
Proof. intros H. by rewrite !run_install_cookies, H. Qed.

Lemma run_bind_worlds {A B} (m : M A) (k : A → M B) (w1 w2 : world)
    (tr : list call) :
  (∀ t, run m w1 t = run m w2 t) →
  (∀ a t, run (k a) w1 t = run (k a) w2 t) →
  run (m ≫= k) w1 tr = run (m ≫= k) w2 tr.
Proof.
  intros Hm Hk. rewrite !run_bind, Hm.
  destruct (run m w2 tr) as [t [a|e|]]; [apply Hk|done..].
Qed.

Lemma run_with_worlds {A} (body : M A) (w1 w2 : world) (tr : list call) :
  fails w1 = fails w2 →
  (∀ t, run body w1 t = run body w2 t) →
  run (with_sync_playwright body) w1 tr
  = run (with_sync_playwright body) w2 tr.
Proof.
  intros Hf Hb. unfold with_sync_playwright. cbn [run].
  rewrite (run_engine_worlds _ w1 w2) by done.
  destruct (run (engine Sync_playwright_enter) w2 tr) as [t1 [[]|e|]];
    [|done..].
  rewrite Hb. destruct (run body w2 t1) as [t2 [a|e|]]; [| |done].
  - by rewrite (run_engine_worlds _ w1 w2).
  - by rewrite (run_engine_worlds _ w1 w2).
Qed.

Lemma fetch_html_worlds (url : str) (chd : option str) (w1 w2 : world)
    (tr : list call) :
  fails w1 = fails w2 →
  page_content w1 = page_content w2 →
  run (_playwright_fetch_html url chd) w1 tr
  = run (_playwright_fetch_html url chd) w2 tr.
Proof.
  intros Hf Hp. unfold _playwright_fetch_html.
  apply run_with_worlds; [done|]. intros t.
  do 7 (apply run_bind_worlds;
        [intros;
         first [by apply run_engine_worlds
               |by apply run_install_cookies_worlds]
        |intros [] ?]).
  rewrite !run_bind. cbn [run ask]. rewrite Hp.
  do 2 (apply run_bind_worlds;
        [intros; by apply run_engine_worlds|intros [] ?]).
  reflexivity.
Qed.

(** X17. The resolution depends on the reply to the fetch only through
    the media URL that the fast path extracts from it: in two worlds that
    otherwise agree, two replies with the same extracted URL, or two
    replies with none (a status of 400 or more whatever the body says, a
    transport failure, a page without marker), give the same calls and
    the same outcome. The batches of the reel grid play no part. The
    worlds agree on the validation of URLs: on what it refuses and on what
    it makes of the strings it accepts. *)
Theorem resolution_reads_first_marker_only (p : ResolveIn) (w1 w2 : world)
    (tr : list call) :
  UA w1 = UA w2 →
  HttpUrl w1 = HttpUrl w2 →
  fails w1 = fails w2 →
  page_content w1 = page_content w2 →
  fast_path_url w1 = fast_path_url w2 →
  run (resolve_direct_mp4 p) w1 tr = run (resolve_direct_mp4 p) w2 tr.
Proof.
  intros Hua Hurl Hfl Hpc Heq.
  assert (fast_request w1 p = fast_request w2 p) as Hreq
    by (unfold fast_request; by rewrite Hua).
  assert (∀ m, fields_ok w1 (reel_url p) m = fields_ok w2 (reel_url p) m)
    as Hok by (intros m; unfold fields_ok, http_url_ok; by rewrite Hurl).
  assert (∀ m, result_for w1 (reel_url p) m = result_for w2 (reel_url p) m)
    as Hres by (intros m; unfold result_for; by rewrite Hurl).
  destruct (fast_path_url w1) as [mp4|] eqn:Hf1.
  - destruct (fields_ok w1 (reel_url p) mp4) eqn:E.
    + rewrite (run_resolve_fast p w1 tr mp4 Hf1 E).
      rewrite (run_resolve_fast p w2 tr mp4) by (done || by rewrite <-Hok).
      by rewrite Hreq, Hres.
    + rewrite (run_resolve_fallback p w1) by (by rewrite Hf1).
      rewrite (run_resolve_fallback p w2) by (by rewrite <-Heq, <-Hok).
      rewrite Hreq.
      rewrite (fetch_html_worlds _ _ w1 w2) by done.
      destruct (run _ w2 _) as [t [html|e|]]; [|done..].
      destruct (_extract_og_video html); [|done]. by rewrite Hok, Hres.
  - rewrite (run_resolve_fallback p w1) by (by rewrite Hf1).
    rewrite (run_resolve_fallback p w2) by (by rewrite <-Heq).
    rewrite Hreq.
    rewrite (fetch_html_worlds _ _ w1 w2) by done.
    destruct (run _ w2 _) as [t [html|e|]]; [|done..].
    destruct (_extract_og_video html); [|done]. by rewrite Hok, Hres.
Qed.

Lemma resolution_reads_first_marker_only_witness :
  run (resolve_direct_mp4 payload0)
    (World (u "UA") (Response 404 og_doc) (λ s, Some s) (λ _, false)
       (page_with (u "https://x/y.mp4")) (λ _, [])) []
  = run (resolve_direct_mp4 payload0)
      (World (u "UA") Transport_failure (λ s, Some s) (λ _, false)
         (page_with (u "https://x/y.mp4")) (λ r, [nth_link r])) [].
Proof.
  apply (resolution_reads_first_marker_only payload0
           (World (u "UA") (Response 404 og_doc) (λ s, Some s) (λ _, false)
              (page_with (u "https://x/y.mp4")) (λ _, []))
           (World (u "UA") Transport_failure (λ s, Some s) (λ _, false)
              (page_with (u "https://x/y.mp4")) (λ r, [nth_link r])));
    reflexivity.
Defined.

(** ** What the response lists *)

Lemma while_true_worlds (max_count : option Z) (w1 w2 : world)
    (fuel : nat) :
  fails w1 = fails w2 →
  page_hrefs w1 = page_hrefs w2 →
  ∀ (n : nat) (seen : gset str) (idle : nat) (tr : list call),
    run (while_true fuel max_count n seen idle) w1 tr
    = run (while_true fuel max_count n seen idle) w2 tr.
Proof.
  intros Hf Hp. induction fuel as [|fuel IH]; intros n seen idle tr; [done|].
  rewrite !while_true_S.
  apply run_bind_worlds; [intros; by apply run_engine_worlds|intros [] t].
  rewrite !run_bind. cbn [run ask]. rewrite Hp.
  destruct (for_hrefs max_count (page_hrefs w2 n) seen 0) as [seen' new].
  destruct (cap_reached max_count seen'); [done|].
  cbv zeta. destruct (idle_limit <=? _); [done|].
  do 2 (apply run_bind_worlds;
        [intros; by apply run_engine_worlds|intros [] ?]).
  apply IH.
Qed.

Lemma collect_worlds (fuel : nat) (username : str) (max_count : option Z)
    (chd : option str) (w1 w2 : world) (tr : list call) :
  fails w1 = fails w2 →
  page_hrefs w1 = page_hrefs w2 →
  run (_playwright_collect_reels fuel username max_count chd) w1 tr
  = run (_playwright_collect_reels fuel username max_count chd) w2 tr.
Proof.
  intros Hf Hp. unfold _playwright_collect_reels.
  apply run_bind_worlds; [|done]. intros t.
  apply run_with_worlds; [done|]. intros t0.
  do 6 (apply run_bind_worlds;
        [intros;
         first [by apply run_engine_worlds
               |by apply run_install_cookies_worlds]
        |intros [] ?]).
  apply run_bind_worlds; [intros; by apply while_true_worlds|intros ? ?].
  do 2 (apply run_bind_worlds;
        [intros; by apply run_engine_worlds|intros [] ?]).
  done.
Qed.

Lemma mapM_const (c : str) (l : list str) :
  mapM (λ _ : str, Some c) l = Some (replicate (length l) c).
Proof.
  apply mapM_Some. induction l as [|x l IH]; simpl; by constructor.
Qed.

(** The links of a response need not be distinct: when the validation
    makes one URL of two links collected, the response lists it twice. *)
Lemma list_reels_may_list_a_url_twice :
  ∃ tr r x,
    list_reels 16 (u "bob")
      {| max := Some 0%Z; query_cookie_header := None |} world_collapse
    = (tr, Responded r)
    ∧ reels r = [x; x] ∧ count r = 2.
Proof.
  eexists _, _, _. unfold list_reels. cbn [max query_cookie_header].
  rewrite (collect_worlds _ _ _ _ world_collapse (world_links 2))
    by reflexivity.
  rewrite collect_world_links by lia.
  change (HttpUrl world_collapse)
    with (λ _ : str, Some (u "https://www.instagram.com/")).
  rewrite mapM_const, sorted_length, size_world_links.
  split_and!; reflexivity.
Qed.

(** ** Termination on a finite feed *)

Lemma while_true_terminates (max_count : option Z) (w : world) (D : nat) :
  (∀ i, fails w i = false) →
  (∀ k, size (discovered w k) ≤ D) →
  ∀ (fuel n : nat) (seen : gset str) (idle : nat) (tr : list call),
    seen ⊆ discovered w n →
    idle < idle_limit →
    idle_limit * (D - size seen) + (idle_limit - idle) ≤ fuel →
    ∃ tr' S', run (while_true fuel max_count n seen idle) w tr
              = (tr', Return S').
Proof.
  intros Hq HD. unfold idle_limit.
  induction fuel as [|fuel IH]; intros n seen idle tr Hsub Hidle Hfuel;
    [lia|].
  rewrite while_true_step_quiet by done.
  destruct (for_hrefs max_count (page_hrefs w n) seen 0)
    as [seen' new] eqn:Hf.
  destruct (for_hrefs_spec _ _ _ _ _ _ Hf) as (H1 & H2 & H3 & _).
  destruct (cap_reached max_count seen'); [by eauto|].
  cbv zeta. unfold idle_limit.
  destruct (15 <=? (if new =? 0 then idle + 1 else 0)) eqn:Hlim;
    [by eauto|].
  apply Nat.leb_gt in Hlim.
  assert (seen' ⊆ discovered w (S n)) as Hsub'.
  { simpl. set_solver. }
  pose proof (subseteq_size _ _ Hsub') as Hs'.
  pose proof (HD (S n)) as HDn.
  pose proof (subseteq_size _ _ H1) as Hs.
  apply IH; [done|done|].
  destruct (Nat.eqb_spec new 0) as [Hz|Hz].
  - assert (size seen' = size seen) as -> by lia. lia.
  - assert (size seen < size seen') by lia. nia.
Qed.

Lemma while_true_rounds_le (max_count : option Z) (w : world) (fuel : nat) :
  ∀ (n : nat) (seen : gset str) (idle : nat) (tr tr' : list call)
    (S' : gset str),
  run (while_true fuel max_count n seen idle) w tr = (tr', Return S') →
  ∃ k, k < fuel ∧ tr' = tr ++ rounds_calls k ++ [Eval_on_selector_all].
Proof.
  induction fuel as [|fuel IH]; intros n seen idle tr tr' S' Hrun; [done|].
  apply while_true_step_returns in Hrun.
  destruct (for_hrefs max_count (page_hrefs w n) seen 0) as [seen' new].
  destruct Hrun
    as [(_ & -> & ->)|[(_ & _ & -> & ->)|(_ & _ & Hrun)]].
  - exists 0. split; [lia|done].
  - exists 0. split; [lia|done].
  - apply IH in Hrun as (k & Hk & ->). exists (S k). split; [lia|].
    simpl. by rewrite <-!app_assoc.
Qed.

(** X18. On a feed that shows at most [D] distinct reel links, whatever
    the maximum, the collector returns when no call fails: fifteen
    rounds for each link and fifteen more are enough, and it makes no
    more harvests than that. *)
Theorem collector_returns_on_finite_feed (username : str)
    (max_count : option Z) (chd : option str) (w : world) (D : nat) :
  (∀ i, fails w i = false) →
  (∀ k, size (discovered w k) ≤ D) →
  ∃ tr out,
    run (_playwright_collect_reels (idle_limit * (D + 1)) username
           max_count chd) w []
    = (tr, Return out)
    ∧ rounds tr ≤ idle_limit * (D + 1).
Proof.
  intros Hq HD.
  destruct (while_true_terminates max_count w D Hq HD
              (idle_limit * (D + 1)) 0 ∅ 0 (setup_calls username chd))
    as (tr1 & S' & Hw).
  - done.
  - unfold idle_limit. lia.
  - rewrite size_empty. unfold idle_limit. lia.
  - exists (tr1 ++ closing_calls), (sorted S').
    split; [by apply collect_quiet|].
    apply while_true_rounds_le in Hw as (k & Hk & ->).
    replace ((setup_calls username chd ++ rounds_calls k
                ++ [Eval_on_selector_all]) ++ closing_calls)
      with (collection_calls username chd k)
      by (unfold collection_calls; by rewrite <-!app_assoc).
    rewrite rounds_collection. lia.
Qed.

Lemma collector_returns_on_finite_feed_witness :
  ∃ tr out,
    run (_playwright_collect_reels (idle_limit * (2 + 1)) (u "bob")
           None None) (world_links 2) []
    = (tr, Return out)
    ∧ rounds tr ≤ idle_limit * (2 + 1).
Proof.
  apply (collector_returns_on_finite_feed (u "bob") None None
           (world_links 2) 2); [done|].
  intros [|k]; [|by rewrite size_world_links].
  change (discovered (world_links 2) 0) with (∅ : gset str).
  rewrite size_empty. lia.
Defined.
